(** * The conflating relay of pgwhalen/conflate-talk

    A shallow embedding of [src/solutions/V1_solution.go],
    [src/solutions/V2_solution.go], [src/solutions/V3_solution.go] and of the
    [Sale] payload and the producer of [src/main.go].

    The relay goroutine is a sequential loop that talks to its environment
    through three channels: [inCh] (the producer), [retryCh] (the channel of
    the current [time.Timer]) and [outCh] (the consumer).  One loop iteration
    is modelled as a function of the relay's local variables and of what the
    environment offers at that moment; a run of the goroutine is the
    iteration function folded over a schedule of such offers. *)

From Stdlib Require Import ZArith List Lia Bool.
From Stdlib Require Import Floats.
From stdpp Require Import base list.

Open Scope Z_scope.

(** ** The pieces of the Go runtime the relay uses *)

(** Instants and durations are counted in nanoseconds.  An instant is the
    signed distance from Go's zero [time.Time] (1 January of year 1, UTC);
    instants before it are negative.  The values of type [time.Time]
    themselves are the records of the module [time] below. *)
Definition Time := Z.
Definition Duration := Z.

(** [t.After(u)]: is [t] strictly later than [u]? *)
Definition After (t u : Time) : bool := u <? t.

(** ** [time.Time] *)

Module time.

(** A [*time.Location]: nil, which stands for UTC, or a pointer, told from the
    other pointers by its number. *)
Definition Location := option nat.

(** A [time.Time]: its wall-clock instant and its Location pointer; two of
    them are [==] in Go exactly when both agree.  The monotonic clock reading
    that [time.Now()] attaches is left out: the values are wall times, as
    [t.Round(0)] returns them.  ([After] compares the readings of two values
    that both carry one; values made from one clock reading by [Add], as the
    stamps of [main.go] are, come in the same order either way.) *)
Record Time := mkTime { instant : Z; loc : Location }.

(** [Time{}] *)
Definition zero : Time := {| instant := 0; loc := None |}.

Definition second : Z := 1000000000.

(** [t.sec()] and [t.nsec()]: whole seconds since the zero time, and the
    nanoseconds within the second, between 0 and 999999999. *)
Definition sec (t : Time) : Z := instant t / second.
Definition nsec (t : Time) : Z := instant t mod second.

Definition maxInt64 : Z := 2 ^ 63 - 1.
Definition minInt64 : Z := - 2 ^ 63.

(** The instants a [Time] can hold: the seconds are an [int64]. *)
Definition representable (i : Z) : Prop := minInt64 <= i / second <= maxInt64.

(** [t.After(u)] *)
Definition After (t u : Time) : bool := After (instant t) (instant u).

(** [t.addSec(d)]: the seconds saturate where the sum leaves [int64]. *)
Definition addSec (s d : Z) : Z :=
  let sum := s + d in
  if (minInt64 <=? sum) && (sum <=? maxInt64) then sum
  else if 0 <? d then maxInt64 else - maxInt64.

(** [t.Add(d)]: the nanoseconds are added and carried first, then the
    seconds; the Location is kept. *)
Definition Add (t : Time) (d : Duration) : Time :=
  let dsec := Z.quot d second in
  let nsec0 := nsec t + Z.rem d second in
  let '(dsec1, nsec1) :=
    if second <=? nsec0 then (dsec + 1, nsec0 - second)
    else if nsec0 <? 0 then (dsec - 1, nsec0 + second)
    else (dsec, nsec0) in
  {| instant := addSec (sec t) dsec1 * second + nsec1; loc := loc t |}.

(** [t == u] *)
Definition eqb (t u : Time) : bool :=
  (instant t =? instant u) && bool_decide (loc t = loc u).

End time.

(** A runtime timer: the instant at which it is due and whether it is still
    pending, was stopped, or has delivered its tick on its channel [C].  A
    [*time.Timer] is an index into the list of all timers created so far, and
    the channel [retryTimer.C] is identified with the timer that owns it. *)
Inductive timer_status := Armed | Stopped | Fired.

Record Timer := mkTimer { when : Time; status : timer_status }.

Definition set_status (s : timer_status) (tm : Timer) : Timer :=
  {| when := when tm; status := s |}.

(** [time.NewTimer(d)] called at instant [now]. *)
Definition NewTimer (now : Time) (d : Duration) (h : list Timer) : nat * list Timer :=
  (length h, h ++ [ {| when := now + d; status := Armed |} ]).

(** [t.Stop()]: a pending timer no longer fires; otherwise nothing happens. *)
Definition Stop (t : nat) (h : list Timer) : list Timer :=
  match h !! t with
  | Some tm =>
      match status tm with
      | Armed => <[t := set_status Stopped tm]> h
      | _ => h
      end
  | None => h
  end.

(** A receive from the channel of timer [c] at instant [now]: possible only
    when the timer is pending and due, and it consumes the single tick. *)
Definition tick (c : nat) (now : Time) (h : list Timer) : option (list Timer) :=
  match h !! c with
  | Some tm =>
      match status tm with
      | Armed => if when tm <=? now then Some (<[c := set_status Fired tm]> h) else None
      | _ => None
      end
  | None => None
  end.

Definition is_armed (tm : Timer) : bool :=
  match status tm with Armed => true | _ => false end.

(** ** The [Conflater] interface *)

(** [type Conflater[C any] interface { ConflateWith(latest C) C; ZeroValue() C }].
    Both are methods, so both take the receiver. *)
Class Conflater (C : Type) := {
  ConflateWith : C -> C -> C;
  ZeroValue : C -> C
}.

(** The value of [var x T], which every Go type has. *)
Class GoZero (T : Type) := go_zero : T.

(** What wakes the first [select] of the loop. *)
Inductive wake (T : Type) :=
| Recv (lastMsg : T)
| Tick.
Arguments Recv {T} lastMsg.
Arguments Tick {T}.

Definition received {T} (w : wake T) : list T :=
  match w with Recv v => [v] | Tick => [] end.

(** One entry of a schedule: the instant of the iteration, what woke the first
    [select], and whether a receiver is parked on [outCh] when the second
    [select] runs. *)
Record slot (T : Type) := mkSlot {
  at_time : Time;
  woke : wake T;
  consumer_ready : bool
}.
Arguments mkSlot {T}.
Arguments at_time {T}.
Arguments woke {T}.
Arguments consumer_ready {T}.

(** The values the producer handed over during a schedule, in order. *)
Definition submitted {T} (sched : list (slot T)) : list T :=
  concat (map (fun sl => received (woke sl)) sched).

(** The schedule cut at every successful handoff: the groups of values handed
    over between two handoffs, and the values received since the last one. *)
Fixpoint batches {T} (pend : list T) (sched : list (slot T)) : list (list T) * list T :=
  match sched with
  | [] => ([], pend)
  | sl :: rest =>
      let pend' := pend ++ received (woke sl) in
      if consumer_ready sl
      then let '(gs, p) := batches [] rest in (pend' :: gs, p)
      else batches pend' rest
  end.

(** ** ConflateV3 *)

Module V3.
Section Relay.

Context {T : Type} {conflater : Conflater T} {gozero : GoZero T}.
Variable retryInterval : Duration.

(** The goroutine's local variables, and the timers it has created. *)
Record state := mkState {
  conflatedMessage : T;
  retryTimer : option nat;
  retryCh : option nat;
  timers : list Timer
}.

(** [var conflatedMessage T; var retryTimer *time.Timer; var retryCh <-chan time.Time] *)
Definition init : state :=
  {| conflatedMessage := go_zero; retryTimer := None; retryCh := None; timers := [] |}.

(** The first [select].  [None]: the case cannot be taken (a receive from a
    nil channel, or from the channel of a timer that has no tick to give). *)
Definition await (w : wake T) (now : Time) (st : state) : option state :=
  match w with
  | Recv lastMsg =>
      let cm := ConflateWith (conflatedMessage st) lastMsg in
      match retryTimer st with
      | Some t =>
          Some {| conflatedMessage := cm; retryTimer := Some t;
                  retryCh := None; timers := Stop t (timers st) |}
      | None =>
          Some {| conflatedMessage := cm; retryTimer := None;
                  retryCh := retryCh st; timers := timers st |}
      end
  | Tick =>
      match retryCh st with
      | Some c =>
          match tick c now (timers st) with
          | Some h =>
              Some {| conflatedMessage := conflatedMessage st;
                      retryTimer := retryTimer st;
                      retryCh := retryCh st; timers := h |}
          | None => None
          end
      | None => None
      end
  end.

(** The second [select]: a send on [outCh] with a [default] case. *)
Definition attempt (ready : bool) (now : Time) (st : state) : state * option T :=
  if ready then
    ({| conflatedMessage := ZeroValue (conflatedMessage st);
        retryTimer := retryTimer st; retryCh := retryCh st;
        timers := timers st |},
     Some (conflatedMessage st))
  else
    let '(t, h) := NewTimer now retryInterval (timers st) in
    ({| conflatedMessage := conflatedMessage st;
        retryTimer := Some t; retryCh := Some t; timers := h |},
     None).

(** One turn of the [for] loop. *)
Definition iteration (sl : slot T) (st : state) : option (state * option T) :=
  match await (woke sl) (at_time sl) st with
  | Some st1 => Some (attempt (consumer_ready sl) (at_time sl) st1)
  | None => None
  end.

(** The loop, driven by a schedule; the values sent on [outCh], in order.
    [None]: the schedule asks for a tick that no timer can give. *)
Fixpoint ConflateV3 (sched : list (slot T)) (st : state) : option (state * list T) :=
  match sched with
  | [] => Some (st, [])
  | sl :: rest =>
      match iteration sl st with
      | Some (st1, out) =>
          match ConflateV3 rest st1 with
          | Some (st2, outs) => Some (st2, option_list out ++ outs)
          | None => None
          end
      | None => None
      end
  end.

(** The cases of the first [select] that can proceed when [sender] is what a
    producer blocked on [inCh] offers.  Go picks one of them by a uniform
    pseudo-random choice; with none the goroutine blocks. *)
Definition ready_cases (sender : option T) (now : Time) (st : state) : list (wake T) :=
  match sender with Some v => [Recv v] | None => [] end ++
  match await Tick now st with Some _ => [Tick] | None => [] end.

(** The current timer is pending. *)
Definition armed (st : state) : bool :=
  match retryCh st with
  | Some c => match timers st !! c with Some tm => is_armed tm | None => false end
  | None => false
  end.

(** The fold of a group of values, and the values the loop sends for a list of
    groups: the first fold starts from [start], each later one from what
    [ZeroValue] returned after the previous send. *)
Definition fold_from (start : T) (g : list T) : T := fold_left ConflateWith g start.

Fixpoint deliveries (start : T) (gs : list (list T)) : list T :=
  match gs with
  | [] => []
  | g :: gs' => let d := fold_from start g in d :: deliveries (ZeroValue d) gs'
  end.

Definition next_start (start : T) (ds : list T) : T :=
  match last ds with Some d => ZeroValue d | None => start end.

(** [identity()], and the combine-fold of a group starting from it. *)
Definition identity : T := ZeroValue go_zero.
Definition combine_fold (g : list T) : T := fold_from identity g.

End Relay.
End V3.

(** ** ConflateV2 *)

Module V2.
Section Relay.

Context {T : Type} {gozero : GoZero T}.
Variable retryInterval : Duration.

Record state := mkState {
  lastMsg : T;
  retryTimer : option nat;
  retryCh : option nat;
  timers : list Timer
}.

(** [var lastMsg T; var retryTimer *time.Timer; var retryCh <-chan time.Time] *)
Definition init : state :=
  {| lastMsg := go_zero; retryTimer := None; retryCh := None; timers := [] |}.

(** The first [select]; [case lastMsg = <-inCh] overwrites [lastMsg]. *)
Definition await (w : wake T) (now : Time) (st : state) : option state :=
  match w with
  | Recv v =>
      match retryTimer st with
      | Some t =>
          Some {| lastMsg := v; retryTimer := Some t;
                  retryCh := None; timers := Stop t (timers st) |}
      | None =>
          Some {| lastMsg := v; retryTimer := None;
                  retryCh := retryCh st; timers := timers st |}
      end
  | Tick =>
      match retryCh st with
      | Some c =>
          match tick c now (timers st) with
          | Some h =>
              Some {| lastMsg := lastMsg st; retryTimer := retryTimer st;
                      retryCh := retryCh st; timers := h |}
          | None => None
          end
      | None => None
      end
  end.

(** The second [select]; a successful send leaves every variable as it is. *)
Definition attempt (ready : bool) (now : Time) (st : state) : state * option T :=
  if ready then (st, Some (lastMsg st))
  else
    let '(t, h) := NewTimer now retryInterval (timers st) in
    ({| lastMsg := lastMsg st; retryTimer := Some t; retryCh := Some t; timers := h |},
     None).

Definition iteration (sl : slot T) (st : state) : option (state * option T) :=
  match await (woke sl) (at_time sl) st with
  | Some st1 => Some (attempt (consumer_ready sl) (at_time sl) st1)
  | None => None
  end.

Fixpoint ConflateV2 (sched : list (slot T)) (st : state) : option (state * list T) :=
  match sched with
  | [] => Some (st, [])
  | sl :: rest =>
      match iteration sl st with
      | Some (st1, out) =>
          match ConflateV2 rest st1 with
          | Some (st2, outs) => Some (st2, option_list out ++ outs)
          | None => None
          end
      | None => None
      end
  end.

(** The last value of a group ([fallback] for an empty group). *)
Definition latest (fallback : T) (g : list T) : T := default fallback (last g).

End Relay.
End V2.

(** ** The payload of [main.go] *)

(** [type Sale struct { dollars float64; timestamp time.Time }] *)
Record Sale := mkSale { dollars : float; timestamp : time.Time }.

Definition maxTime (t1 t2 : time.Time) : time.Time :=
  if time.After t1 t2 then t1 else t2.

Definition Sale_ConflateWith (s s2 : Sale) : Sale :=
  {| dollars := (dollars s + dollars s2)%float;
     timestamp := maxTime (timestamp s) (timestamp s2) |}.

(** [Sale{}]: [+0] dollars at the zero [time.Time]. *)
Definition Sale_ZeroValue (s : Sale) : Sale :=
  {| dollars := 0%float; timestamp := time.zero |}.

#[export] Instance Sale_Conflater : Conflater Sale :=
  {| ConflateWith := Sale_ConflateWith; ZeroValue := Sale_ZeroValue |}.

#[export] Instance Sale_GoZero : GoZero Sale :=
  {| dollars := 0%float; timestamp := time.zero |}.

(** [s == s2] on two sales: [==] on the dollars, which holds of the two zeros
    and fails of a NaN and itself, and [==] on the timestamps. *)
Definition Sale_eqb (s s2 : Sale) : bool :=
  (dollars s =? dollars s2)%float && time.eqb (timestamp s) (timestamp s2).

(** [float64] negative zero, the one value that adding [+0] changes. *)
Definition is_neg_zero (x : float) : bool :=
  match Prim2SF x with S754_zero true => true | _ => false end.

(** ** A second payload for the generic relay

    [ConflateV3] accepts every type that implements [Conflater]; [Sale] is the
    only one the repository defines.  This one, which a caller of the package
    could write, records whether every event of a batch succeeded:
<<
    type AllOK bool
    func (a AllOK) ConflateWith(b AllOK) AllOK { return a && b }
    func (a AllOK) ZeroValue() AllOK           { return true }
>>
    Its [ZeroValue()] is the neutral element of [ConflateWith], and is not the
    value of [var x AllOK], which is [false]. *)
Definition AllOK := bool.

#[export] Instance AllOK_Conflater : Conflater AllOK :=
  {| ConflateWith := andb; ZeroValue := fun _ => true |}.

#[export] Instance AllOK_GoZero : GoZero AllOK := false.

(** The payload types for which [ZeroValue()] returns the value of [var x T],
    whatever the receiver. *)
Class ZeroValueIsZero (T : Type) {conflater : Conflater T} {gozero : GoZero T} : Prop :=
  zero_value_is_zero : forall x : T, ZeroValue x = go_zero.

(** ** Invariants of the loop *)

Section Invariants.

Context {T : Type} {conflater : Conflater T} {gozero : GoZero T}.

(** What holds of the timer variables at the top of every iteration: the
    channel, when set, is the channel of [retryTimer]; [retryTimer] points to a
    timer that exists; and no timer but the one behind [retryCh] is pending. *)
Record wf (st : V3.state (T := T)) : Prop := mkWf {
  wf_ch : forall c, V3.retryCh st = Some c -> V3.retryTimer st = Some c;
  wf_tm : forall t, V3.retryTimer st = Some t -> (t < length (V3.timers st))%nat;
  wf_armed : forall i tm,
      V3.timers st !! i = Some tm -> status tm = Armed -> V3.retryCh st = Some i
}.

(** No timer at all is pending. *)
Definition quiet (h : list Timer) : Prop :=
  forall i tm, h !! i = Some tm -> status tm <> Armed.

End Invariants.

(** ** The properties of the runs *)

Section Properties.

Context {T : Type} {conflater : Conflater T} {gozero : GoZero T}.
Variable retryInterval : Duration.

(** The states the goroutine can be in at the top of its loop. *)
Definition reachable (st : V3.state (T := T)) : Prop :=
  exists sched ds, V3.ConflateV3 retryInterval sched V3.init = Some (st, ds).

(** The values received since the last successful handoff, or since the start. *)
Definition pending (sched : list (slot T)) : list T := snd (batches [] sched).

(** The no-loss partition of a run that handed over [submitted sched], sent
    [ds] and ended in [st]: the values sent are the combine-folds of
    consecutive non-empty groups, in order, and what follows the last group is
    merged in the accumulator, with a retry pending for it. *)
Definition partitioned (sched : list (slot T)) (st : V3.state (T := T)) (ds : list T) : Prop :=
  exists gs pend,
    submitted sched = concat gs ++ pend /\
    Forall (fun g => g <> []) gs /\
    ds = map V3.combine_fold gs /\
    V3.conflatedMessage st = V3.combine_fold pend /\
    (V3.armed st = false -> pend = []).

(** The timer state the relay is said to be in after an input or a handoff:
    the channel variable is nil and no timer is pending. *)
Definition cleared (st : V3.state (T := T)) : Prop :=
  V3.retryCh st = None /\ quiet (V3.timers st).

(** Go's [select] over the ready cases. *)
Definition select_may_take (sender : option T) (now : Time) (st : V3.state (T := T))
  (w : wake T) : Prop :=
  In w (V3.ready_cases sender now st).

(** The schedule in which the producer is silent, every retry fires when it is
    due, and the consumer is first parked on [outCh] at the retry after [n]
    failed ones; [t] is when the pending timer is due. *)
Fixpoint retry_schedule (t : Time) (n : nat) : list (slot T) :=
  match n with
  | O => [mkSlot t Tick true]
  | S n' => mkSlot t Tick false :: retry_schedule (t + retryInterval) n'
  end.

End Properties.

(** ** The schedules and states used as examples *)

(** A sale stamped at instant [t], in UTC. *)
Definition sale (d : float) (t : Time) : Sale :=
  {| dollars := d; timestamp := time.mkTime t None |}.

(** A sale stamped at the zero instant in a Location that is not nil. *)
Definition sale_at_zero_elsewhere : Sale :=
  {| dollars := 1%float; timestamp := time.mkTime 0 (Some 1%nat) |}.

(** Two sales while the consumer is busy, then a retry that finds it parked. *)
Definition two_sales : list (slot Sale) :=
  [ mkSlot 0 (Recv (sale 1 500)) false;
    mkSlot 5 (Recv (sale 2 1000)) false;
    mkSlot 15 Tick true ].

(** One sale while the consumer is busy. *)
Definition one_sale_waiting : list (slot Sale) :=
  [ mkSlot 0 (Recv (sale 1 500)) false ].

(** The state [two_sales] is in before its retry: both sales merged, the first
    timer stopped, the second pending. *)
Definition two_sales_pending : V3.state (T := Sale) :=
  {| V3.conflatedMessage := sale 3 1000;
     V3.retryTimer := Some 1%nat;
     V3.retryCh := Some 1%nat;
     V3.timers := [mkTimer 10 Stopped; mkTimer 15 Armed] |}.

(** One event, with the consumer parked on [outCh]. *)
Definition one_ok : list (slot AllOK) := [ mkSlot 0 (Recv true) true ].

(** ** ConflateV2 as an instance of ConflateV3 *)

Section V2_in_V3.

Context {T : Type} {gozero : GoZero T}.

(** ConflateV2 is ConflateV3 for the payload whose merge keeps the incoming
    value and whose reset keeps the receiver. *)
Definition Overwrite : Conflater T :=
  {| ConflateWith := fun _ v => v; ZeroValue := fun x => x |}.

Definition as_V3 (st : V2.state (T := T)) : V3.state (T := T) :=
  {| V3.conflatedMessage := V2.lastMsg st;
     V3.retryTimer := V2.retryTimer st;
     V3.retryCh := V2.retryCh st;
     V3.timers := V2.timers st |}.

End V2_in_V3.

(** ** ConflateV1 *)

Module V1.
Section Relay.

Context {T : Type}.

(** [lastMsg := <-inCh]: the loop has no other channel to wait on, so nothing
    but a value from the producer wakes it. *)
Definition await (w : wake T) : option T :=
  match w with
  | Recv lastMsg => Some lastMsg
  | Tick => None
  end.

(** The [select] with an empty [default]: the value is sent or forgotten. *)
Definition attempt (ready : bool) (lastMsg : T) : option T :=
  if ready then Some lastMsg else None.

Definition iteration (sl : slot T) : option (option T) :=
  match await (woke sl) with
  | Some lastMsg => Some (attempt (consumer_ready sl) lastMsg)
  | None => None
  end.

(** The loop keeps nothing from one turn to the next. *)
Fixpoint ConflateV1 (sched : list (slot T)) : option (list T) :=
  match sched with
  | [] => Some []
  | sl :: rest =>
      match iteration sl with
      | Some out =>
          match ConflateV1 rest with
          | Some outs => Some (option_list out ++ outs)
          | None => None
          end
      | None => None
      end
  end.

End Relay.
End V1.

(** ** The producer of [main.go] *)

(** [const saleInterval = 500 * time.Millisecond], in nanoseconds. *)
Definition saleInterval : Duration := 500 * 1000000.

(** The package variables [currDollar] and [currTimestamp]. *)
Record till := mkTill { currDollar : float; currTimestamp : time.Time }.

(** [var currDollar float64 = 0; var currTimestamp = initTime] *)
Definition till_init (initTime : time.Time) : till :=
  {| currDollar := 0%float; currTimestamp := initTime |}.

(** [makeSale()]: the sale it returns and the variables it leaves.  The sleep
    and the log line are effects on the clock and on standard output, which
    the sale does not depend on. *)
Definition makeSale (g : till) : Sale * till :=
  let d := (currDollar g + 1)%float in
  let t := time.Add (currTimestamp g) saleInterval in
  ({| dollars := d; timestamp := t |}, {| currDollar := d; currTimestamp := t |}).

(** The first [n] sales [producer] sends: [for { salesCh <- makeSale() }]. *)
Fixpoint producer (n : nat) (g : till) : list Sale :=
  match n with
  | O => []
  | S n' => let '(s, g') := makeSale g in s :: producer n' g'
  end.

(** ** Schedules *)

(** The slots in which the first [select] receives from the producer. *)
Definition is_input {T} (sl : slot T) : bool :=
  match woke sl with Recv _ => true | Tick => false end.

(** A slot may take a timer tick only right after an iteration whose send
    failed, and no sooner than [retryInterval] after it; [prev] is the slot
    before, if any. *)
Definition retry_allowed {T} (retryInterval : Duration)
  (prev : option (slot T)) (sl : slot T) : bool :=
  match woke sl with
  | Recv _ => true
  | Tick =>
      match prev with
      | Some p => negb (consumer_ready p) && (at_time p + retryInterval <=? at_time sl)
      | None => false
      end
  end.

Fixpoint feasible {T} (retryInterval : Duration)
  (prev : option (slot T)) (sched : list (slot T)) : bool :=
  match sched with
  | [] => true
  | sl :: rest => retry_allowed retryInterval prev sl && feasible retryInterval (Some sl) rest
  end.

(** The iterations whose send failed. *)
Definition failed_attempts {T} (sched : list (slot T)) : list (slot T) :=
  filter (fun sl => consumer_ready sl = false) sched.

(** Two sales, the consumer parked at the first and busy at the second. *)
Definition second_sale_missed : list (slot Sale) :=
  [ mkSlot 0 (Recv (sale 1 500)) true;
    mkSlot 5 (Recv (sale 2 1000)) false ].

(** What the timers look like after the iteration of slot [prev] (or at the
    start): none is pending after a send, and after a failed send the one
    behind [retryCh] is, due [retryInterval] later. *)
Definition settled {T} (retryInterval : Duration)
  (prev : option (slot T)) (st : V3.state (T := T)) : Prop :=
  match prev with
  | Some p =>
      if consumer_ready p then quiet (V3.timers st)
      else exists c,
          V3.retryCh st = Some c /\
          V3.timers st !! c
          = Some {| when := at_time p + retryInterval; status := Armed |}
  | None => quiet (V3.timers st)
  end.

(** Two sales made from a clock started at 1000, the consumer busy at both,
    then a retry that finds it parked. *)
Definition two_made_sales : list (slot Sale) :=
  [ mkSlot 0 (Recv (sale 1 500001000)) false;
    mkSlot 5 (Recv (sale 2 1000001000)) false;
    mkSlot 15 Tick true ].

(** A list of instants none of which is before the one preceding it, [a]
    preceding the first. *)
Fixpoint nondecreasing_from (a : Time) (l : list Time) : Prop :=
  match l with
  | [] => True
  | x :: l' => a <= x /\ nondecreasing_from x l'
  end.

(** ** A third payload

    Like [AllOK], a payload a caller of the package could write; its
    [ZeroValue()] is the value of [var x AnyFailed]:
<<
    type AnyFailed bool
    func (a AnyFailed) ConflateWith(b AnyFailed) AnyFailed { return a || b }
    func (a AnyFailed) ZeroValue() AnyFailed               { return false }
>> *)
Definition AnyFailed := bool.

Definition AnyFailed_Conflater : Conflater AnyFailed :=
  {| ConflateWith := orb; ZeroValue := fun _ => false |}.

Definition AnyFailed_GoZero : GoZero AnyFailed := false.

(** Three events, the second a failure, the consumer busy at the first two
    and at the last. *)
Definition three_events : list (slot AnyFailed) :=
  [ mkSlot 0 (Recv false) false;
    mkSlot 5 (Recv true) false;
    mkSlot 15 Tick true;
    mkSlot 20 (Recv false) false ].

(** * Proofs *)

(** ** Timers *)

Lemma Stop_length t h : length (Stop t h) = length h.
Proof.
  unfold Stop. destruct (h !! t) as [tm|]; [|reflexivity].
  destruct (status tm); try reflexivity. apply length_insert.
Qed.

Lemma Stop_quiet t h :
  (forall i tm, h !! i = Some tm -> status tm = Armed -> i = t) ->
  quiet (Stop t h).
Proof.
  intros Honly i tm Hi Harmed. unfold Stop in Hi.
  destruct (h !! t) as [tm0|] eqn:Ht.
  - destruct (status tm0) eqn:Hs.
    + destruct (decide (i = t)) as [->|Hne].
      * rewrite list_lookup_insert_eq in Hi by (eapply lookup_lt_Some; eauto).
        injection Hi as <-. discriminate Harmed.
      * rewrite list_lookup_insert_ne in Hi by congruence.
        apply Hne. eauto.
    + assert (i = t) as -> by eauto. congruence.
    + assert (i = t) as -> by eauto. congruence.
  - assert (i = t) as -> by eauto. congruence.
Qed.

Lemma tick_Some c now h h' :
  tick c now h = Some h' ->
  exists tm, h !! c = Some tm /\ status tm = Armed /\ when tm <= now /\
             h' = <[c := set_status Fired tm]> h.
Proof.
  unfold tick. destruct (h !! c) as [tm|]; [|discriminate].
  destruct (status tm) eqn:Hs; try discriminate.
  destruct (when tm <=? now) eqn:Hw; [|discriminate].
  intros [= <-]. exists tm. repeat split; auto. lia.
Qed.

Lemma tick_due c now h tm :
  h !! c = Some tm -> status tm = Armed -> when tm <= now ->
  tick c now h = Some (<[c := set_status Fired tm]> h).
Proof.
  intros Hc Hs Hw. unfold tick. rewrite Hc, Hs.
  destruct (when tm <=? now) eqn:E; [reflexivity | lia].
Qed.

Lemma tick_length c now h h' : tick c now h = Some h' -> length h' = length h.
Proof.
  intros (tm & _ & _ & _ & ->)%tick_Some. apply length_insert.
Qed.

Lemma tick_quiet c now h h' :
  (forall i tm, h !! i = Some tm -> status tm = Armed -> i = c) ->
  tick c now h = Some h' -> quiet h'.
Proof.
  intros Honly (tm0 & Hc & _ & _ & ->)%tick_Some i tm Hi Harmed.
  destruct (decide (i = c)) as [->|Hne].
  - rewrite list_lookup_insert_eq in Hi by (eapply lookup_lt_Some; eauto).
    injection Hi as <-. discriminate Harmed.
  - rewrite list_lookup_insert_ne in Hi by congruence. apply Hne. eauto.
Qed.

Lemma quiet_nil : quiet [].
Proof. intros i tm Hi. rewrite lookup_nil in Hi. discriminate. Qed.

Lemma NewTimer_lookup_new now d h :
  snd (NewTimer now d h) !! fst (NewTimer now d h)
  = Some {| when := now + d; status := Armed |}.
Proof.
  unfold NewTimer. simpl. rewrite lookup_app_r by lia.
  replace (length h - length h)%nat with 0%nat by lia. reflexivity.
Qed.

Lemma NewTimer_lookup_old now d h i :
  (i < length h)%nat -> snd (NewTimer now d h) !! i = h !! i.
Proof. intros Hi. unfold NewTimer. simpl. apply lookup_app_l. exact Hi. Qed.

(** ** One iteration of ConflateV3 *)

Section V3_iteration.

Context {T : Type} {conflater : Conflater T} {gozero : GoZero T}.
Variable retryInterval : Duration.

#[local] Abbreviation state := (V3.state (T := T)).
#[local] Abbreviation await := (V3.await (T := T)).
#[local] Abbreviation attempt := (V3.attempt (T := T) retryInterval).

Lemma wf_init : wf (V3.init (T := T)).
Proof.
  split; simpl; intros; discriminate.
Qed.

Lemma armed_false_quiet (st : state) :
  wf st -> V3.armed st = false -> quiet (V3.timers st).
Proof.
  intros Hwf Ha i tm Hi Hs. unfold V3.armed in Ha.
  rewrite (wf_armed _ Hwf i tm Hi Hs), Hi in Ha.
  unfold is_armed in Ha. rewrite Hs in Ha. discriminate.
Qed.

Lemma quiet_armed_false (st : state) : quiet (V3.timers st) -> V3.armed st = false.
Proof.
  intros Hq. unfold V3.armed. destruct (V3.retryCh st) as [c|]; [|reflexivity].
  destruct (V3.timers st !! c) as [tm|] eqn:Hc; [|reflexivity].
  unfold is_armed. specialize (Hq c tm Hc). destruct (status tm); congruence.
Qed.

Lemma wf_only_current (st : state) t :
  wf st -> V3.retryTimer st = Some t ->
  forall i tm, V3.timers st !! i = Some tm -> status tm = Armed -> i = t.
Proof.
  intros Hwf Ht i tm Hi Hs.
  pose proof (wf_armed _ Hwf i tm Hi Hs) as Hc.
  apply (wf_ch _ Hwf) in Hc. congruence.
Qed.

(** The first [select] leaves no timer pending, whichever case it takes. *)
Lemma await_wf_quiet w now (st st1 : state) :
  wf st -> await w now st = Some st1 ->
  wf st1 /\ quiet (V3.timers st1).
Proof.
  intros Hwf Haw. destruct w as [v|]; simpl in Haw.
  - destruct (V3.retryTimer st) as [t|] eqn:Ht; injection Haw as <-.
    + assert (quiet (Stop t (V3.timers st))) as Hq
        by (apply Stop_quiet; eapply wf_only_current; eauto).
      split; [|exact Hq]. split; simpl.
      * discriminate.
      * intros t' [= <-]. rewrite Stop_length. eapply wf_tm; eauto.
      * intros i tm Hi Hs. destruct (Hq i tm Hi Hs).
    + assert (V3.retryCh st = None) as Hch.
      { destruct (V3.retryCh st) as [c|] eqn:Hc; [|reflexivity].
        apply (wf_ch _ Hwf) in Hc. congruence. }
      assert (quiet (V3.timers st)) as Hq.
      { intros i tm Hi Hs. pose proof (wf_armed _ Hwf i tm Hi Hs). congruence. }
      split; [|exact Hq]. split; simpl.
      * rewrite Hch. discriminate.
      * discriminate.
      * intros i tm Hi Hs. destruct (Hq i tm Hi Hs).
  - destruct (V3.retryCh st) as [c|] eqn:Hc; [|discriminate].
    destruct (tick c now (V3.timers st)) as [h|] eqn:Htick; [|discriminate].
    injection Haw as <-.
    assert (quiet h) as Hq.
    { eapply tick_quiet; [|exact Htick].
      eapply wf_only_current; eauto. eapply wf_ch; eauto. }
    split; [|exact Hq]. split; simpl.
    + intros c' [= <-]. eapply wf_ch; eauto.
    + intros t Ht. rewrite (tick_length _ _ _ _ Htick). eapply wf_tm; eauto.
    + intros i tm Hi Hs. destruct (Hq i tm Hi Hs).
Qed.

(** The accumulator after the first [select]. *)
Lemma await_conflated w now (st st1 : state) :
  await w now st = Some st1 ->
  V3.conflatedMessage st1 = V3.fold_from (V3.conflatedMessage st) (received w).
Proof.
  intros Haw. destruct w as [v|]; simpl in Haw.
  - destruct (V3.retryTimer st); injection Haw as <-; reflexivity.
  - destruct (V3.retryCh st) as [c|]; [|discriminate].
    destruct (tick c now (V3.timers st)); [|discriminate].
    injection Haw as <-. reflexivity.
Qed.

(** The timer case can only be taken while the current timer is pending. *)
Lemma await_Tick_armed now (st st1 : state) :
  await Tick now st = Some st1 -> V3.armed st = true.
Proof.
  simpl. unfold V3.armed. destruct (V3.retryCh st) as [c|]; [|discriminate].
  destruct (tick c now (V3.timers st)) as [h|] eqn:Htick; [|discriminate].
  apply tick_Some in Htick as (tm & -> & Hs & _). intros _.
  unfold is_armed. rewrite Hs. reflexivity.
Qed.

Lemma attempt_ready_wf now (st : state) :
  wf st -> wf (fst (attempt true now st)).
Proof. intros [? ? ?]. split; simpl; assumption. Qed.

Lemma attempt_busy_wf now (st : state) :
  wf st -> quiet (V3.timers st) ->
  wf (fst (attempt false now st)) /\ V3.armed (fst (attempt false now st)) = true.
Proof.
  intros Hwf Hq. split.
  - split; simpl.
    + intros c Hc. exact Hc.
    + intros t [= <-]. rewrite length_app. simpl. lia.
    + intros i tm Hi Hs.
      destruct (decide (i < length (V3.timers st))%nat) as [Hlt|Hge].
      * rewrite lookup_app_l in Hi by exact Hlt. destruct (Hq i tm Hi Hs).
      * f_equal. apply lookup_lt_Some in Hi. rewrite length_app in Hi.
        simpl in Hi. lia.
  - unfold V3.armed. simpl.
    rewrite lookup_app_r by lia.
    replace (length (V3.timers st) - length (V3.timers st))%nat with 0%nat by lia.
    reflexivity.
Qed.

(** What the [default] case of the second [select] does. *)
Lemma attempt_busy_frame now (st : state) :
  snd (attempt false now st) = None /\
  V3.conflatedMessage (fst (attempt false now st)) = V3.conflatedMessage st /\
  V3.retryTimer (fst (attempt false now st)) = Some (length (V3.timers st)) /\
  V3.retryCh (fst (attempt false now st)) = Some (length (V3.timers st)) /\
  V3.timers (fst (attempt false now st)) !! length (V3.timers st)
    = Some {| when := now + retryInterval; status := Armed |}.
Proof.
  repeat split. apply (NewTimer_lookup_new now retryInterval (V3.timers st)).
Qed.

End V3_iteration.

(** ** Runs of ConflateV3 *)

Lemma batches_concat {T} (sched : list (slot T)) :
  forall p gs p', batches p sched = (gs, p') -> concat gs ++ p' = p ++ submitted sched.
Proof.
  induction sched as [|sl rest IH]; intros p gs p' Hb; simpl in Hb.
  - injection Hb as <- <-. unfold submitted. simpl. symmetry. apply app_nil_r.
  - unfold submitted in *. simpl.
    destruct (consumer_ready sl).
    + destruct (batches [] rest) as [gs0 p0] eqn:Hrest.
      injection Hb as <- <-. simpl.
      specialize (IH [] gs0 p0 Hrest). simpl in IH.
      rewrite <- !app_assoc. f_equal. f_equal. exact IH.
    + rewrite (IH _ _ _ Hb). rewrite <- app_assoc. reflexivity.
Qed.

Lemma batches_length {T} (sched : list (slot T)) :
  forall p gs p', batches p sched = (gs, p') ->
  Forall (fun g => g <> []) gs ->
  (length gs + length p' <= length p + length (submitted sched))%nat.
Proof.
  intros p gs p' Hb Hne. apply batches_concat in Hb.
  rewrite <- length_app, <- Hb, length_app.
  enough (length gs <= length (concat gs))%nat by lia.
  clear Hb. induction Hne as [|g gs Hg _ IH]; simpl; [lia|].
  rewrite length_app. destruct g; [congruence|]. simpl. lia.
Qed.

Section V3_runs.

Context {T : Type} {conflater : Conflater T} {gozero : GoZero T}.
Variable retryInterval : Duration.

#[local] Abbreviation state := (V3.state (T := T)).
#[local] Abbreviation run := (V3.ConflateV3 (T := T) retryInterval).

Lemma fold_from_app (start : T) p q :
  V3.fold_from start (p ++ q) = V3.fold_from (V3.fold_from start p) q.
Proof. unfold V3.fold_from. apply fold_left_app. Qed.

Lemma next_start_cons (start d : T) ds :
  V3.next_start start (d :: ds) = V3.next_start (ZeroValue d) ds.
Proof.
  unfold V3.next_start. destruct ds as [|d' ds]; [reflexivity|].
  rewrite last_cons. destruct (last (d' :: ds)); reflexivity.
Qed.

(** What one iteration does to the accumulator and to the current timer, in
    terms of the values [p] received since the last handoff. *)
Lemma iteration_spec sl (st st1 : state) out p start :
  wf st ->
  V3.conflatedMessage st = V3.fold_from start p ->
  (V3.armed st = true <-> p <> []) ->
  V3.iteration retryInterval sl st = Some (st1, out) ->
  let p1 := p ++ received (woke sl) in
  p1 <> [] /\ wf st1 /\
  if consumer_ready sl
  then out = Some (V3.fold_from start p1) /\
       V3.conflatedMessage st1 = ZeroValue (V3.fold_from start p1) /\
       V3.armed st1 = false
  else out = None /\
       V3.conflatedMessage st1 = V3.fold_from start p1 /\
       V3.armed st1 = true.
Proof.
  intros Hwf Hcm Harmed Hit p1. unfold V3.iteration in Hit.
  destruct (V3.await (woke sl) (at_time sl) st) as [st0|] eqn:Haw; [|discriminate].
  injection Hit as Hit.
  destruct (await_wf_quiet _ _ _ _ Hwf Haw) as [Hwf0 Hq0].
  pose proof (await_conflated _ _ _ _ Haw) as Hcm0.
  rewrite Hcm, <- fold_from_app in Hcm0. fold p1 in Hcm0.
  assert (p1 <> []) as Hp1.
  { subst p1. destruct (woke sl) as [v|] eqn:Hw; simpl.
    - intros Habs. apply app_eq_nil in Habs as [_ Habs]. discriminate.
    - rewrite app_nil_r. apply Harmed. eapply await_Tick_armed; eauto. }
  split; [exact Hp1|].
  destruct (consumer_ready sl).
  - pose proof (attempt_ready_wf retryInterval (at_time sl) st0 Hwf0) as Hwf1.
    rewrite Hit in Hwf1. simpl in Hwf1. split; [exact Hwf1|].
    simpl in Hit. injection Hit as <- <-. simpl. rewrite Hcm0.
    repeat split. apply quiet_armed_false. exact Hq0.
  - destruct (attempt_busy_wf retryInterval (at_time sl) st0 Hwf0 Hq0) as [Hwf1 Ha1].
    rewrite Hit in Hwf1, Ha1. simpl in Hwf1, Ha1. split; [exact Hwf1|].
    simpl in Hit. injection Hit as <- <-. simpl. rewrite Hcm0.
    repeat split. exact Ha1.
Qed.

Lemma run_spec sched :
  forall (st st' : state) p start ds,
  wf st ->
  V3.conflatedMessage st = V3.fold_from start p ->
  (V3.armed st = true <-> p <> []) ->
  run sched st = Some (st', ds) ->
  exists gs p',
    batches p sched = (gs, p') /\ wf st' /\
    ds = V3.deliveries start gs /\
    Forall (fun g => g <> []) gs /\
    V3.conflatedMessage st' = V3.fold_from (V3.next_start start ds) p' /\
    (V3.armed st' = true <-> p' <> []).
Proof.
  induction sched as [|sl rest IH]; intros st st' p start ds Hwf Hcm Harmed Hrun;
    simpl in Hrun.
  - injection Hrun as <- <-. exists [], p. simpl.
    split; [reflexivity|]. split; [assumption|]. split; [reflexivity|].
    split; [constructor|]. split; assumption.
  - destruct (V3.iteration retryInterval sl st) as [[st1 out]|] eqn:Hit; [|discriminate].
    destruct (run rest st1) as [[st2 outs]|] eqn:Hrest; [|discriminate].
    injection Hrun as <- <-.
    destruct (iteration_spec _ _ _ _ _ _ Hwf Hcm Harmed Hit) as (Hp1 & Hwf1 & Hcase).
    simpl. destruct (consumer_ready sl).
    + destruct Hcase as (-> & Hcm1 & Ha1).
      destruct (IH st1 st2 [] _ outs Hwf1 Hcm1) as (gs & p' & Hb & Hwf2 & Hds & Hne & Hcm2 & Ha2);
        [ rewrite Ha1; split; [discriminate | congruence] | exact Hrest | ].
      rewrite Hb. eexists _, _. split; [reflexivity|].
      split; [exact Hwf2|]. simpl. split; [rewrite Hds; reflexivity|].
      split; [constructor; assumption|].
      rewrite next_start_cons. split; assumption.
    + destruct Hcase as (-> & Hcm1 & Ha1).
      destruct (IH st1 st2 _ start outs Hwf1 Hcm1) as (gs & p' & Hb & Hwf2 & Hds & Hne & Hcm2 & Ha2);
        [ rewrite Ha1; split; [intros _; exact Hp1 | reflexivity] | exact Hrest | ].
      exists gs, p'. split; [exact Hb|]. split; [exact Hwf2|].
      split; [exact Hds|]. split; [exact Hne|]. split; assumption.
Qed.

End V3_runs.

(** ** Payloads whose [ZeroValue()] is the zero value *)

Lemma Sale_zero_value_is_zero : ZeroValueIsZero Sale.
Proof. intros s. reflexivity. Qed.

Section Lawful.

Context {T : Type} {conflater : Conflater T} {gozero : GoZero T}.
Hypothesis law : ZeroValueIsZero T.

Lemma identity_zero : V3.identity (T := T) = go_zero.
Proof. apply law. Qed.

Lemma deliveries_lawful (gs : list (list T)) :
  V3.deliveries go_zero gs = map V3.combine_fold gs.
Proof.
  unfold V3.combine_fold. rewrite identity_zero.
  induction gs as [|g gs IH]; simpl; [reflexivity|].
  rewrite law, IH. reflexivity.
Qed.

Lemma next_start_lawful (ds : list T) : V3.next_start go_zero ds = go_zero.
Proof. unfold V3.next_start. destruct (last ds); [apply law | reflexivity]. Qed.

End Lawful.

(** ** C1: the no-loss partition *)

(** C1, as amended.  For a payload type whose [ZeroValue()] returns the value
    of [var x T]: whatever the schedule, the values ConflateV3 sends are the
    combine-folds, each starting from [identity()], of consecutive non-empty
    groups of the submitted values, in order; the groups and the values still
    merged in the accumulator cover the submitted sequence exactly once, and
    nothing is left in the accumulator unless a retry is pending for it.  There
    are at most as many deliveries as submissions. *)
Theorem no_loss_partition {T : Type} {conflater : Conflater T} {gozero : GoZero T}
  (law : ZeroValueIsZero T) (retryInterval : Duration)
  (sched : list (slot T)) (st : V3.state) (ds : list T) :
  V3.ConflateV3 retryInterval sched V3.init = Some (st, ds) ->
  partitioned sched st ds /\ (length ds <= length (submitted sched))%nat.
Proof.
  intros Hrun.
  destruct (run_spec retryInterval sched V3.init st [] go_zero ds wf_init)
    as (gs & p & Hb & Hwf & Hds & Hne & Hcm & Harmed);
    [ reflexivity | split; [discriminate | congruence] | exact Hrun | ].
  rewrite (deliveries_lawful law) in Hds.
  split.
  - exists gs, p. split; [symmetry; apply (batches_concat _ _ _ _ Hb)|].
    split; [exact Hne|]. split; [exact Hds|]. split.
    + rewrite Hcm, (next_start_lawful law). unfold V3.combine_fold.
      rewrite (identity_zero law). reflexivity.
    + intros Hoff. destruct p as [|v p]; [reflexivity|].
      assert (V3.armed st = true) by (apply Harmed; discriminate). congruence.
  - pose proof (batches_length _ _ _ _ Hb Hne) as Hlen.
    rewrite Hds, length_map. simpl in Hlen. lia.
Qed.

(** The partition of the run of [two_sales]: one delivery, the merge of both. *)
Lemma no_loss_partition_witness :
  exists st ds,
    V3.ConflateV3 10 two_sales V3.init = Some (st, ds) /\
    partitioned two_sales st ds /\ (length ds <= length (submitted two_sales))%nat.
Proof.
  eexists _, _. split; [vm_compute; reflexivity|].
  apply (no_loss_partition Sale_zero_value_is_zero 10 two_sales).
  vm_compute. reflexivity.
Defined.

(** C1 as stated fails for [AllOK]: the one event submitted is [true], the
    value sent is [false], and no grouping of [[true]] folds to it from
    [identity()]. *)
Lemma no_loss_partition_fails_for_AllOK :
  exists st ds,
    V3.ConflateV3 10 one_ok V3.init = Some (st, ds) /\ ~ partitioned one_ok st ds.
Proof.
  eexists _, _. split; [vm_compute; reflexivity|].
  intros (gs & pend & Hsub & Hne & Hds & _).
  destruct gs as [|g [|g' gs]]; try discriminate Hds.
  inversion Hne as [|? ? Hg _]; subst.
  destruct g as [|v g]; [congruence|].
  unfold submitted, one_ok in Hsub. simpl in Hsub.
  injection Hsub as <- Hrest.
  destruct g; [|discriminate Hrest].
  vm_compute in Hds. discriminate Hds.
Qed.

(** ** C2: the accumulator *)

(** C2, as amended.  For a payload type whose [ZeroValue()] returns the value
    of [var x T]: the accumulator starts at [identity()]; at the top of every
    iteration it is the combine-fold, from [identity()], of the values
    received since the last successful handoff (or since the start); and after
    the first [select] of the iteration it is that fold extended by the value
    just received, if any. *)
Theorem accumulator_invariant {T : Type} {conflater : Conflater T} {gozero : GoZero T}
  (law : ZeroValueIsZero T) (retryInterval : Duration) :
  V3.conflatedMessage V3.init = V3.identity /\
  forall (sched : list (slot T)) (st : V3.state) (ds : list T),
    V3.ConflateV3 retryInterval sched V3.init = Some (st, ds) ->
    V3.conflatedMessage st = V3.combine_fold (pending sched) /\
    forall w now st1,
      V3.await w now st = Some st1 ->
      V3.conflatedMessage st1 = V3.combine_fold (pending sched ++ received w).
Proof.
  split; [symmetry; apply (identity_zero law)|].
  intros sched st ds Hrun.
  destruct (run_spec retryInterval sched V3.init st [] go_zero ds wf_init)
    as (gs & p & Hb & _ & _ & _ & Hcm & _);
    [ reflexivity | split; [discriminate | congruence] | exact Hrun | ].
  assert (V3.conflatedMessage st = V3.combine_fold (pending sched)) as Hacc.
  { unfold pending. rewrite Hb. simpl. rewrite Hcm, (next_start_lawful law).
    unfold V3.combine_fold. rewrite (identity_zero law). reflexivity. }
  split; [exact Hacc|].
  intros w now st1 Haw. rewrite (await_conflated _ _ _ _ Haw), Hacc.
  unfold V3.combine_fold. symmetry. apply fold_from_app.
Qed.

(** The accumulator after one sale that could not be handed over. *)
Lemma accumulator_invariant_witness :
  V3.conflatedMessage (T := Sale) V3.init = V3.identity /\
  exists st,
    V3.ConflateV3 10 one_sale_waiting V3.init = Some (st, []) /\
    V3.conflatedMessage st = V3.combine_fold (pending one_sale_waiting) /\
    forall w now st1,
      V3.await w now st = Some st1 ->
      V3.conflatedMessage st1 = V3.combine_fold (pending one_sale_waiting ++ received w).
Proof.
  split; [apply (accumulator_invariant Sale_zero_value_is_zero 10)|].
  eexists. split; [vm_compute; reflexivity|].
  apply (proj2 (accumulator_invariant Sale_zero_value_is_zero 10) one_sale_waiting _ []).
  vm_compute. reflexivity.
Defined.

(** C2 as stated fails for [AllOK]: the accumulator starts at [false], which
    is not [identity()], and after one event that could not be handed over it
    is not the combine-fold of that event. *)
Lemma accumulator_not_identity_for_AllOK :
  V3.conflatedMessage (T := AllOK) V3.init <> V3.identity /\
  exists st,
    V3.ConflateV3 10 [mkSlot 0 (Recv true) false] V3.init = Some (st, []) /\
    V3.conflatedMessage st <> V3.combine_fold (pending [mkSlot 0 (Recv true) false]).
Proof.
  split; [vm_compute; discriminate|].
  eexists. split; [vm_compute; reflexivity|]. vm_compute. discriminate.
Qed.

(** ** Reachable states *)

Section Reachable.

Context {T : Type} {conflater : Conflater T} {gozero : GoZero T}.
Variable retryInterval : Duration.

#[local] Abbreviation state := (V3.state (T := T)).

Lemma reachable_init : reachable retryInterval (V3.init (T := T)).
Proof. exists [], []. reflexivity. Qed.

Lemma reachable_wf (st : state) : reachable retryInterval st -> wf st.
Proof.
  intros (sched & ds & Hrun).
  destruct (run_spec retryInterval sched V3.init st [] go_zero ds wf_init)
    as (_ & _ & _ & Hwf & _);
    [ reflexivity | split; [discriminate | congruence] | exact Hrun | exact Hwf ].
Qed.

(** With no timer pending the timer case of the first [select] cannot be
    taken, at any instant. *)
Lemma quiet_no_Tick (st : state) now :
  quiet (V3.timers st) -> V3.await Tick now st = None.
Proof.
  intros Hq. destruct (V3.await Tick now st) as [st1|] eqn:Haw; [|reflexivity].
  apply await_Tick_armed in Haw. rewrite (quiet_armed_false _ Hq) in Haw.
  discriminate.
Qed.

(** The input case can always be taken. *)
Lemma await_Recv_total (st : state) v now :
  exists st1, V3.await (Recv v) now st = Some st1.
Proof. simpl. destruct (V3.retryTimer st); eexists; reflexivity. Qed.

Lemma await_Recv_cleared (st st1 : state) v now :
  wf st -> V3.await (Recv v) now st = Some st1 -> cleared st1.
Proof.
  intros Hwf Haw. split; [|eapply await_wf_quiet; eauto].
  simpl in Haw. destruct (V3.retryTimer st) as [t|] eqn:Ht; injection Haw as <-; simpl.
  - reflexivity.
  - destruct (V3.retryCh st) as [c|] eqn:Hc; [|reflexivity].
    apply (wf_ch _ Hwf) in Hc. congruence.
Qed.

(** A successful send changes the accumulator and nothing else. *)
Lemma attempt_ready_frame now (st : state) :
  V3.retryTimer (fst (V3.attempt retryInterval true now st)) = V3.retryTimer st /\
  V3.retryCh (fst (V3.attempt retryInterval true now st)) = V3.retryCh st /\
  V3.timers (fst (V3.attempt retryInterval true now st)) = V3.timers st /\
  V3.conflatedMessage (fst (V3.attempt retryInterval true now st))
    = ZeroValue (V3.conflatedMessage st) /\
  snd (V3.attempt retryInterval true now st) = Some (V3.conflatedMessage st).
Proof. repeat split. Qed.

(** An iteration that sends a value is one whose second [select] took the
    send case. *)
Lemma iteration_sent sl (st st1 : state) d :
  V3.iteration retryInterval sl st = Some (st1, Some d) ->
  exists st0,
    V3.await (woke sl) (at_time sl) st = Some st0 /\
    consumer_ready sl = true /\
    d = V3.conflatedMessage st0 /\
    st1 = fst (V3.attempt retryInterval true (at_time sl) st0).
Proof.
  unfold V3.iteration. intros Hit.
  destruct (V3.await (woke sl) (at_time sl) st) as [st0|]; [|discriminate].
  exists st0. unfold V3.attempt in Hit.
  destruct (consumer_ready sl); simpl in Hit.
  - injection Hit as <- <-. repeat split.
  - discriminate.
Qed.

End Reachable.

(** ** C3: when the retry timer is stopped and cleared *)

(** C3, as amended.  In every reachable state the input case of the first
    [select] stops the pending timer and sets [retryCh] to nil.  A successful
    send changes neither [retryTimer], nor [retryCh], nor any timer; but no
    timer is pending when it happens (the timer was stopped by the input case
    or has fired), so none is pending after it and the timer case of the next
    [select] cannot be taken. *)
Theorem retry_cleared_on_input_spent_on_handoff {T : Type} {conflater : Conflater T} {gozero : GoZero T}
  (retryInterval : Duration) (st : V3.state (T := T)) :
  reachable retryInterval st ->
  (forall v now, exists st1, V3.await (Recv v) now st = Some st1 /\ cleared st1) /\
  (forall sl st1 d,
     V3.iteration retryInterval sl st = Some (st1, Some d) ->
     exists st0,
       V3.await (woke sl) (at_time sl) st = Some st0 /\
       V3.retryTimer st1 = V3.retryTimer st0 /\
       V3.retryCh st1 = V3.retryCh st0 /\
       V3.timers st1 = V3.timers st0 /\
       quiet (V3.timers st1) /\
       forall now, V3.await Tick now st1 = None).
Proof.
  intros Hwf%reachable_wf. split.
  - intros v now. destruct (await_Recv_total st v now) as [st1 Haw].
    exists st1. split; [exact Haw|]. eapply await_Recv_cleared; eauto.
  - intros sl st1 d (st0 & Haw & _ & _ & ->)%iteration_sent.
    exists st0. split; [exact Haw|].
    destruct (await_wf_quiet _ _ _ _ Hwf Haw) as [_ Hq].
    destruct (attempt_ready_frame retryInterval (at_time sl) st0) as (E1 & E2 & E3 & _).
    split; [exact E1|]. split; [exact E2|]. split; [exact E3|].
    rewrite <- E3 in Hq. split; [exact Hq|].
    intros now. apply quiet_no_Tick. exact Hq.
Qed.

(** After one sale that could not be handed over: an input clears the timer,
    and the retry that hands the sale over leaves no timer pending. *)
Lemma retry_cleared_witness :
  exists st : V3.state (T := Sale),
    V3.ConflateV3 10 one_sale_waiting V3.init = Some (st, []) /\
    (forall v now, exists st1, V3.await (Recv v) now st = Some st1 /\ cleared st1) /\
    (forall sl st1 d,
       V3.iteration 10 sl st = Some (st1, Some d) ->
       exists st0,
         V3.await (woke sl) (at_time sl) st = Some st0 /\
         V3.retryTimer st1 = V3.retryTimer st0 /\
         V3.retryCh st1 = V3.retryCh st0 /\
         V3.timers st1 = V3.timers st0 /\
         quiet (V3.timers st1) /\
         forall now, V3.await Tick now st1 = None).
Proof.
  eexists. split; [vm_compute; reflexivity|].
  apply (retry_cleared_on_input_spent_on_handoff 10).
  exists one_sale_waiting, []. vm_compute. reflexivity.
Defined.

(** C3 as stated fails: the retry that hands over the sale of
    [one_sale_waiting] leaves [retryCh] set to the channel of the timer that
    has just fired. *)
Lemma handoff_leaves_retryCh_set :
  exists (st st1 : V3.state (T := Sale)) d,
    reachable 10 st /\
    V3.iteration 10 (mkSlot 10 Tick true) st = Some (st1, Some d) /\
    V3.retryCh st1 = Some 0%nat /\
    ~ cleared st1.
Proof.
  eexists _, _, _. split; [exists one_sale_waiting, []; vm_compute; reflexivity|].
  split; [vm_compute; reflexivity|].
  split; [reflexivity|].
  intros [Hch _]. discriminate Hch.
Qed.

(** ** C4: the reset after a handoff *)

(** C4, as amended.  For a payload whose [ZeroValue()] returns [identity()]
    whatever its receiver (as it does when it returns the value of [var x T],
    which is the case of [Sale]): right after a successful send the
    accumulator is [identity()]; the first [select] then has no case to take
    until the producer sends, at any instant; so the next iteration, if any,
    receives a value [v], and what it sends, if anything, is the merge of [v]
    into [identity()], never [identity()] alone. *)
Theorem idempotent_reset {T : Type} {conflater : Conflater T} {gozero : GoZero T}
  (retryInterval : Duration) (st st1 : V3.state (T := T)) (sl : slot T) (d : T) :
  (forall x : T, ZeroValue x = V3.identity) ->
  reachable retryInterval st ->
  V3.iteration retryInterval sl st = Some (st1, Some d) ->
  V3.conflatedMessage st1 = V3.identity /\
  (forall now, V3.ready_cases None now st1 = []) /\
  (forall sl' st2 out,
     V3.iteration retryInterval sl' st1 = Some (st2, out) ->
     exists v, woke sl' = Recv v /\
               forall d', out = Some d' -> d' = ConflateWith V3.identity v).
Proof.
  intros Hconst Hwf%reachable_wf Hit.
  pose proof Hit as (st0 & Haw & _ & -> & ->)%iteration_sent.
  destruct (await_wf_quiet _ _ _ _ Hwf Haw) as [_ Hq].
  assert (forall now,
    V3.await Tick now (fst (V3.attempt retryInterval true (at_time sl) st0)) = None)
    as Hno by (intros now; apply quiet_no_Tick; exact Hq).
  assert (V3.conflatedMessage (fst (V3.attempt retryInterval true (at_time sl) st0))
          = V3.identity) as Hreset by apply Hconst.
  split; [exact Hreset|]. split.
  - intros now. unfold V3.ready_cases. rewrite Hno. reflexivity.
  - intros sl' st2 out Hit'. unfold V3.iteration in Hit'.
    destruct (woke sl') as [v|] eqn:Hw; [|rewrite Hno in Hit'; discriminate].
    exists v. split; [reflexivity|]. intros d' ->.
    destruct (V3.await (Recv v) (at_time sl')
                (fst (V3.attempt retryInterval true (at_time sl) st0)))
      as [st0'|] eqn:Haw'; [|discriminate].
    apply await_conflated in Haw'. rewrite Hreset in Haw'. simpl in Haw'.
    unfold V3.attempt in Hit'. destruct (consumer_ready sl'); simpl in Hit'.
    + injection Hit' as _ <-. exact Haw'.
    + discriminate.
Qed.

(** The handoff that ends [two_sales], from the state it is made in. *)
Lemma idempotent_reset_witness :
  exists (st1 : V3.state (T := Sale)) d,
    reachable 10 two_sales_pending /\
    V3.iteration 10 (mkSlot 15 Tick true) two_sales_pending = Some (st1, Some d) /\
    V3.conflatedMessage st1 = V3.identity /\
    (forall now, V3.ready_cases None now st1 = []) /\
    (forall sl' st2 out,
       V3.iteration 10 sl' st1 = Some (st2, out) ->
       exists v, woke sl' = Recv v /\
                 forall d', out = Some d' -> d' = ConflateWith V3.identity v).
Proof.
  assert (reachable 10 two_sales_pending) as Hreach
    by (exists (firstn 2 two_sales), []; vm_compute; reflexivity).
  assert (forall x : Sale, ZeroValue x = V3.identity) as Hconst
    by (intros x; reflexivity).
  eexists _, _. split; [exact Hreach|].
  split; [vm_compute; reflexivity|].
  eapply (idempotent_reset 10 two_sales_pending _ (mkSlot 15 Tick true) _ Hconst Hreach).
  vm_compute. reflexivity.
Defined.

(** C4 as stated fails for a payload whose [ZeroValue()] depends on its
    receiver.  With the payload that keeps the incoming value and whose
    [ZeroValue()] returns the receiver, a sale handed over at the first
    iteration is still the accumulator after the send, and is not
    [identity()], which is [Sale{}]. *)
Lemma reset_keeps_what_ZeroValue_returns :
  exists st1 : V3.state (T := Sale),
    reachable (conflater := Overwrite) 10 (V3.init (T := Sale)) /\
    V3.iteration (conflater := Overwrite) 10 (mkSlot 0 (Recv (sale 1 500)) true) V3.init
    = Some (st1, Some (sale 1 500)) /\
    V3.conflatedMessage st1 = sale 1 500 /\
    V3.identity (conflater := Overwrite) = Sale_ZeroValue (sale 1 500) /\
    V3.conflatedMessage st1 <> V3.identity (conflater := Overwrite).
Proof.
  eexists. split; [exists [], []; reflexivity|].
  split; [vm_compute; reflexivity|].
  split; [reflexivity|]. split; [reflexivity|].
  vm_compute. intros E. discriminate E.
Qed.

(** ** C5: an input while a retry is pending *)

(** C5.  In a reachable state whose retry timer is pending, the input case of
    the first [select] stops that timer and sets [retryCh] to nil before the
    send is attempted, so that the timer case cannot be taken any more; the
    send that follows offers the merge of the old accumulator and the new
    value, and an iteration sends that one value if the consumer is parked
    and nothing otherwise. *)
Theorem retry_cancellation {T : Type} {conflater : Conflater T} {gozero : GoZero T}
  (retryInterval : Duration) (st : V3.state (T := T)) (c : nat) (tm : Timer)
  (v : T) (now : Time) :
  reachable retryInterval st ->
  V3.retryCh st = Some c ->
  V3.timers st !! c = Some tm ->
  status tm = Armed ->
  exists st0,
    V3.await (Recv v) now st = Some st0 /\
    V3.timers st0 !! c = Some (set_status Stopped tm) /\
    cleared st0 /\
    (forall now', V3.await Tick now' st0 = None) /\
    V3.conflatedMessage st0 = ConflateWith (V3.conflatedMessage st) v /\
    forall ready,
      exists st1,
        V3.iteration retryInterval (mkSlot now (Recv v) ready) st
        = Some (st1, if ready then Some (ConflateWith (V3.conflatedMessage st) v) else None).
Proof.
  intros Hwf%reachable_wf Hch Hc Hs.
  pose proof (wf_ch _ Hwf c Hch) as Ht.
  destruct (await_Recv_total st v now) as [st0 Haw].
  pose proof (await_Recv_cleared _ _ _ _ Hwf Haw) as Hcl.
  pose proof (await_conflated _ _ _ _ Haw) as Hcm. simpl in Hcm.
  exists st0. split; [exact Haw|]. split.
  { simpl in Haw. rewrite Ht in Haw. injection Haw as <-. simpl.
    unfold Stop. rewrite Hc, Hs. apply list_lookup_insert_eq.
    eapply lookup_lt_Some; eauto. }
  split; [exact Hcl|].
  split; [intros now'; apply quiet_no_Tick; apply Hcl|].
  split; [exact Hcm|].
  intros ready. unfold V3.iteration. simpl woke. simpl at_time. rewrite Haw.
  unfold V3.attempt. simpl consumer_ready.
  destruct ready; simpl; rewrite <- ?Hcm; eexists; reflexivity.
Qed.

(** A second sale arrives while the retry for the first is pending. *)
Lemma retry_cancellation_witness :
  exists (st st0 : V3.state (T := Sale)),
    V3.ConflateV3 10 one_sale_waiting V3.init = Some (st, []) /\
    V3.await (Recv (sale 2 1000)) 5 st = Some st0 /\
    V3.timers st0 !! 0%nat = Some (mkTimer 10 Stopped) /\
    cleared st0 /\
    (forall now', V3.await Tick now' st0 = None) /\
    V3.conflatedMessage st0 = ConflateWith (V3.conflatedMessage st) (sale 2 1000) /\
    forall ready,
      exists st1,
        V3.iteration 10 (mkSlot 5 (Recv (sale 2 1000)) ready) st
        = Some (st1, if ready
                     then Some (ConflateWith (V3.conflatedMessage st) (sale 2 1000))
                     else None).
Proof.
  eexists _, _. split; [vm_compute; reflexivity|].
  destruct (retry_cancellation 10
              {| V3.conflatedMessage := sale 1 500; V3.retryTimer := Some 0%nat;
                 V3.retryCh := Some 0%nat; V3.timers := [mkTimer 10 Armed] |}
              0%nat (mkTimer 10 Armed) (sale 2 1000) 5)
    as (st0 & Haw & Hrest).
  - exists one_sale_waiting, []. vm_compute. reflexivity.
  - reflexivity.
  - reflexivity.
  - reflexivity.
  - vm_compute in Haw. injection Haw as <-.
    split; [vm_compute; reflexivity|]. exact Hrest.
Defined.

(** ** C6: an input and a timer tick at the same instant *)

(** C6, as amended.  When the producer is sending [v] and the retry timer has
    a tick to give, both cases of the first [select] can proceed and Go may
    take either.  If it takes the input case, the timer is cleared and the
    accumulator becomes the merge with [v]; if it takes the timer case, the
    accumulator is offered as it is and [v] is received by a later
    iteration. *)
Theorem select_takes_input_or_tick {T : Type} {conflater : Conflater T} {gozero : GoZero T}
  (retryInterval : Duration) (st st' : V3.state (T := T)) (v : T) (now : Time) :
  reachable retryInterval st ->
  V3.await Tick now st = Some st' ->
  (forall w, select_may_take (Some v) now st w <-> w = Recv v \/ w = Tick) /\
  (exists st0,
     V3.await (Recv v) now st = Some st0 /\ cleared st0 /\
     V3.conflatedMessage st0 = ConflateWith (V3.conflatedMessage st) v) /\
  V3.conflatedMessage st' = V3.conflatedMessage st /\
  exists st0', V3.await (Recv v) now st' = Some st0'.
Proof.
  intros Hwf%reachable_wf Htick. split; [|split; [|split]].
  - intros w. unfold select_may_take, V3.ready_cases. rewrite Htick. simpl.
    intuition congruence.
  - destruct (await_Recv_total st v now) as [st0 Haw]. exists st0.
    split; [exact Haw|]. split; [eapply await_Recv_cleared; eauto|].
    apply (await_conflated _ _ _ _ Haw).
  - apply (await_conflated _ _ _ _ Htick).
  - apply await_Recv_total.
Qed.

(** The retry of [one_sale_waiting] is due at 10; a second sale arrives then. *)
Lemma select_takes_input_or_tick_witness :
  exists (st st' : V3.state (T := Sale)),
    V3.ConflateV3 10 one_sale_waiting V3.init = Some (st, []) /\
    V3.await Tick 10 st = Some st' /\
    (forall w, select_may_take (Some (sale 2 1000)) 10 st w
               <-> w = Recv (sale 2 1000) \/ w = Tick).
Proof.
  exists {| V3.conflatedMessage := sale 1 500; V3.retryTimer := Some 0%nat;
            V3.retryCh := Some 0%nat; V3.timers := [mkTimer 10 Armed] |}.
  eexists. split; [vm_compute; reflexivity|].
  split; [vm_compute; reflexivity|].
  eapply (select_takes_input_or_tick 10).
  - exists one_sale_waiting, []. vm_compute. reflexivity.
  - vm_compute. reflexivity.
Defined.

(** C6 as stated fails: in the state [one_sale_waiting] leads to, with a
    second sale offered at the instant the retry is due, the first [select]
    may take the timer case. *)
Lemma select_may_take_tick_over_input :
  exists st : V3.state (T := Sale),
    reachable 10 st /\
    select_may_take (Some (sale 2 1000)) 10 st (Recv (sale 2 1000)) /\
    select_may_take (Some (sale 2 1000)) 10 st Tick /\
    ~ (forall w, select_may_take (Some (sale 2 1000)) 10 st w -> w = Recv (sale 2 1000)).
Proof.
  eexists. split; [exists one_sale_waiting, []; vm_compute; reflexivity|].
  split; [left; reflexivity|].
  assert (select_may_take (T := Sale) (Some (sale 2 1000)) 10
            {| V3.conflatedMessage := sale 1 500; V3.retryTimer := Some 0%nat;
               V3.retryCh := Some 0%nat; V3.timers := [mkTimer 10 Armed] |} Tick)
    as Htick by (right; left; reflexivity).
  split; [exact Htick|].
  intros Hall. specialize (Hall Tick Htick). discriminate Hall.
Qed.

(** ** C7: a failed attempt *)

(** C7.  When the send on [outCh] cannot proceed, nothing is sent, the
    accumulator is left as it is, and [retryTimer] and [retryCh] are set to a
    new timer, pending and due [retryInterval] after the attempt; the timers
    that existed are not touched. *)
Theorem failed_attempt_frame {T : Type} {conflater : Conflater T} {gozero : GoZero T}
  (retryInterval : Duration) (st : V3.state (T := T)) (now : Time) :
  let st1 := fst (V3.attempt retryInterval false now st) in
  let t := length (V3.timers st) in
  snd (V3.attempt retryInterval false now st) = None /\
  V3.conflatedMessage st1 = V3.conflatedMessage st /\
  V3.retryTimer st1 = Some t /\
  V3.retryCh st1 = Some t /\
  V3.timers st1 !! t = Some {| when := now + retryInterval; status := Armed |} /\
  length (V3.timers st1) = S t /\
  forall i, (i < t)%nat -> V3.timers st1 !! i = V3.timers st !! i.
Proof.
  intros st1 t.
  destruct (attempt_busy_frame retryInterval now st) as (Hout & Hcm & Ht & Hch & Hnew).
  repeat split; try assumption.
  - subst st1 t. simpl. rewrite length_app. simpl. lia.
  - intros i Hi. subst st1 t. simpl. apply lookup_app_l. exact Hi.
Qed.

(** ** C8: retries until the handoff *)

Section Retries.

Context {T : Type} {conflater : Conflater T} {gozero : GoZero T}.
Variable retryInterval : Duration.

#[local] Abbreviation state := (V3.state (T := T)).

(** The instant of the last slot of [retry_schedule t n]. *)
Lemma retry_schedule_last (t : Time) (n : nat) :
  last (retry_schedule (T := T) retryInterval t n)
  = Some (mkSlot (t + Z.of_nat n * retryInterval) Tick true).
Proof.
  revert t. induction n as [|n IH]; intros t.
  - simpl. f_equal. f_equal. lia.
  - change (retry_schedule retryInterval t (S n))
      with (mkSlot (T := T) t Tick false :: retry_schedule retryInterval (t + retryInterval) n).
    rewrite last_cons, IH. f_equal. f_equal. lia.
Qed.

(** The timer case at the instant the pending timer is due. *)
Lemma await_Tick_due (st : state) c t :
  V3.retryCh st = Some c ->
  V3.timers st !! c = Some {| when := t; status := Armed |} ->
  V3.await Tick t st
  = Some {| V3.conflatedMessage := V3.conflatedMessage st;
            V3.retryTimer := V3.retryTimer st;
            V3.retryCh := Some c;
            V3.timers := <[c := {| when := t; status := Fired |}]> (V3.timers st) |}.
Proof.
  intros Hch Hc. simpl. rewrite Hch.
  rewrite (tick_due c t _ _ Hc eq_refl) by (simpl; lia). reflexivity.
Qed.

(** However many retries find the consumer busy, the next one is armed, and
    the first that finds it parked hands over the accumulator as it was. *)
Lemma retry_loop (n : nat) :
  forall (st : state) c t,
  wf st ->
  V3.retryCh st = Some c ->
  V3.timers st !! c = Some {| when := t; status := Armed |} ->
  exists st',
    V3.ConflateV3 retryInterval (retry_schedule retryInterval t n) st
    = Some (st', [V3.conflatedMessage st]) /\
    V3.conflatedMessage st' = ZeroValue (V3.conflatedMessage st) /\
    V3.armed st' = false.
Proof.
  induction n as [|n IH]; intros st c t Hwf Hch Hc;
    pose proof (await_Tick_due st c t Hch Hc) as Haw;
    destruct (await_wf_quiet _ _ _ _ Hwf Haw) as [Hwf0 Hq0].
  - eexists. simpl. unfold V3.iteration. simpl woke. simpl at_time. rewrite Haw.
    simpl. split; [reflexivity|]. split; [reflexivity|].
    apply quiet_armed_false. exact Hq0.
  - destruct (attempt_busy_wf retryInterval t _ Hwf0 Hq0) as [Hwf1 _].
    pose proof (attempt_busy_frame retryInterval t
                  {| V3.conflatedMessage := V3.conflatedMessage st;
                     V3.retryTimer := V3.retryTimer st;
                     V3.retryCh := Some c;
                     V3.timers := <[c := {| when := t; status := Fired |}]> (V3.timers st) |})
      as (_ & Hcm1 & _ & Hch1 & Hnew).
    destruct (IH _ _ _ Hwf1 Hch1 Hnew) as (st' & Hrun & Hcm' & Ha').
    exists st'.
    change (retry_schedule retryInterval t (S n))
      with (mkSlot (T := T) t Tick false :: retry_schedule retryInterval (t + retryInterval) n).
    cbn [V3.ConflateV3]. unfold V3.iteration. simpl woke. simpl at_time.
    simpl consumer_ready. rewrite Haw.
    replace (V3.attempt retryInterval false t _)
      with (fst (V3.attempt retryInterval false t
                   {| V3.conflatedMessage := V3.conflatedMessage st;
                      V3.retryTimer := V3.retryTimer st;
                      V3.retryCh := Some c;
                      V3.timers := <[c := {| when := t; status := Fired |}]> (V3.timers st) |}),
            @None T) by reflexivity.
    rewrite Hrun. rewrite Hcm1 in *. simpl. split; [reflexivity|].
    split; [exact Hcm'|exact Ha'].
Qed.

End Retries.

(** C8.  If a run leaves values undelivered, a retry timer is pending for
    them, due at some instant [t], and the accumulator is the fold of those
    values.  If from then on the producer is silent and every retry fires when
    it is due, then whatever the number [n] of retries that find the consumer
    busy, the relay keeps retrying and hands the accumulator over, once and
    unchanged, at the first retry that finds the consumer parked on [outCh],
    at the instant [t + n * retryInterval]; the accumulator is then reset and
    no timer is left pending. *)
Theorem eventual_delivery {T : Type} {conflater : Conflater T} {gozero : GoZero T}
  (retryInterval : Duration) (sched : list (slot T)) (st : V3.state) (ds : list T) :
  V3.ConflateV3 retryInterval sched V3.init = Some (st, ds) ->
  pending sched <> [] ->
  exists c t,
    V3.retryCh st = Some c /\
    V3.timers st !! c = Some {| when := t; status := Armed |} /\
    V3.conflatedMessage st = V3.fold_from (V3.next_start go_zero ds) (pending sched) /\
    forall n : nat,
      last (retry_schedule (T := T) retryInterval t n)
      = Some (mkSlot (t + Z.of_nat n * retryInterval) Tick true) /\
      exists st',
        V3.ConflateV3 retryInterval (retry_schedule retryInterval t n) st
        = Some (st', [V3.conflatedMessage st]) /\
        V3.conflatedMessage st' = ZeroValue (V3.conflatedMessage st) /\
        V3.armed st' = false.
Proof.
  intros Hrun Hpend.
  destruct (run_spec retryInterval sched V3.init st [] go_zero ds wf_init)
    as (gs & p & Hb & Hwf & _ & _ & Hcm & Harmed);
    [ reflexivity | split; [discriminate | congruence] | exact Hrun | ].
  unfold pending in *. rewrite Hb in *. simpl in *.
  apply Harmed in Hpend. unfold V3.armed in Hpend.
  destruct (V3.retryCh st) as [c|] eqn:Hch; [|discriminate].
  destruct (V3.timers st !! c) as [[t s]|] eqn:Hc; [|discriminate].
  unfold is_armed in Hpend. simpl in Hpend. destruct s; try discriminate.
  exists c, t. split; [reflexivity|]. split; [exact Hc|]. split; [exact Hcm|].
  intros n. split; [apply retry_schedule_last|].
  eapply retry_loop; eauto.
Qed.

(** After one sale that could not be handed over, the consumer is busy at the
    first three retries and parked at the fourth. *)
Lemma eventual_delivery_witness :
  exists (st st' : V3.state (T := Sale)),
    V3.ConflateV3 10 one_sale_waiting V3.init = Some (st, []) /\
    pending one_sale_waiting <> [] /\
    last (retry_schedule (T := Sale) 10 10 3) = Some (mkSlot 40 Tick true) /\
    V3.ConflateV3 10 (retry_schedule 10 10 3) st = Some (st', [sale 1 500]).
Proof.
  destruct (eventual_delivery 10 one_sale_waiting
              {| V3.conflatedMessage := sale 1 500; V3.retryTimer := Some 0%nat;
                 V3.retryCh := Some 0%nat; V3.timers := [mkTimer 10 Armed] |} [])
    as (c & t & Hch & Hc & _ & Hn).
  - vm_compute. reflexivity.
  - vm_compute. discriminate.
  - injection Hch as <-. injection Hc as <-.
    destruct (Hn 3%nat) as (Hlast & st' & Hrun & _).
    eexists _, st'. split; [vm_compute; reflexivity|].
    split; [vm_compute; discriminate|].
    split; [exact Hlast | exact Hrun].
Defined.

(** ** C9: [Sale.ZeroValue()] and [Sale.ConflateWith] *)

(** Adding [+0] leaves every [float64] but negative zero as it is. *)
Lemma float_add_zero_l (x : float) : is_neg_zero x = false -> (0 + x)%float = x.
Proof.
  unfold is_neg_zero. intros Hx. apply Prim2SF_inj. rewrite add_spec.
  change (Prim2SF 0%float) with (S754_zero false).
  unfold SF64add, SFadd.
  destruct (Prim2SF x) as [[]| | |]; try reflexivity. discriminate Hx.
Qed.

Lemma float_add_zero_r (x : float) : is_neg_zero x = false -> (x + 0)%float = x.
Proof.
  unfold is_neg_zero. intros Hx. apply Prim2SF_inj. rewrite add_spec.
  change (Prim2SF 0%float) with (S754_zero false).
  unfold SF64add, SFadd.
  destruct (Prim2SF x) as [[]| | |]; try reflexivity. discriminate Hx.
Qed.

(** Adding [+0] to a [float64] that is not a NaN gives a value [==] to it. *)
Lemma float_eqb_add_zero_l (x : float) :
  is_nan x = false -> (0 + x =? x)%float = true.
Proof.
  intros Hx. unfold is_nan in Hx. apply negb_false_iff in Hx.
  destruct (is_neg_zero x) eqn:Hz.
  - assert (x = (-0)%float) as ->; [|reflexivity].
    apply Prim2SF_inj. unfold is_neg_zero in Hz.
    destruct (Prim2SF x) as [[]| | |]; try discriminate Hz. reflexivity.
  - rewrite (float_add_zero_l x Hz). exact Hx.
Qed.

Lemma float_eqb_add_zero_r (x : float) :
  is_nan x = false -> (x + 0 =? x)%float = true.
Proof.
  intros Hx. unfold is_nan in Hx. apply negb_false_iff in Hx.
  destruct (is_neg_zero x) eqn:Hz.
  - assert (x = (-0)%float) as ->; [|reflexivity].
    apply Prim2SF_inj. unfold is_neg_zero in Hz.
    destruct (Prim2SF x) as [[]| | |]; try discriminate Hz. reflexivity.
  - rewrite (float_add_zero_r x Hz). exact Hx.
Qed.

Lemma time_eqb_refl (t : time.Time) : time.eqb t t = true.
Proof.
  unfold time.eqb. rewrite Z.eqb_refl. simpl.
  apply bool_decide_eq_true. reflexivity.
Qed.

(** With the zero time first, [maxTime] returns its second argument unless
    that is before the zero time. *)
Lemma maxTime_zero_l (t : time.Time) :
  0 <= time.instant t -> maxTime time.zero t = t.
Proof.
  intros Ht. unfold maxTime, time.After, After. simpl.
  destruct (time.instant t <? 0) eqn:E; [lia | reflexivity].
Qed.

(** With the zero time second, [maxTime] returns its first argument only when
    that is after the zero time; on a tie it returns the zero time. *)
Lemma maxTime_zero_r (t : time.Time) :
  0 < time.instant t -> maxTime t time.zero = t.
Proof.
  intros Ht. unfold maxTime, time.After, After. simpl.
  destruct (0 <? time.instant t) eqn:E; [reflexivity | lia].
Qed.

Lemma maxTime_zero_tie (t : time.Time) :
  time.instant t <= 0 -> maxTime t time.zero = time.zero.
Proof.
  intros Ht. unfold maxTime, time.After, After. simpl.
  destruct (0 <? time.instant t) eqn:E; [lia | reflexivity].
Qed.

(** C9, as amended, with [=] read as Go's [==] on [Sale].  For every [Sale]
    whose dollars are not a NaN: [ZeroValue().ConflateWith(s) == s] when the
    timestamp of [s] is not before the zero time, and
    [s.ConflateWith(ZeroValue()) == s] when the timestamp of [s] is after the
    zero time or is the zero [time.Time] itself. *)
Theorem Sale_ZeroValue_neutral (s s0 : Sale) :
  is_nan (dollars s) = false ->
  (0 <= time.instant (timestamp s) ->
   Sale_eqb (Sale_ConflateWith (Sale_ZeroValue s0) s) s = true) /\
  (0 < time.instant (timestamp s) \/ timestamp s = time.zero ->
   Sale_eqb (Sale_ConflateWith s (Sale_ZeroValue s0)) s = true).
Proof.
  intros Hd. destruct s as [d t]. simpl in Hd |- *.
  unfold Sale_eqb, Sale_ConflateWith, Sale_ZeroValue. simpl. split.
  - intros Ht. rewrite (float_eqb_add_zero_l d Hd), (maxTime_zero_l t Ht).
    apply time_eqb_refl.
  - intros Ht. rewrite (float_eqb_add_zero_r d Hd). simpl.
    destruct Ht as [Ht| ->].
    + rewrite (maxTime_zero_r t Ht). apply time_eqb_refl.
    + reflexivity.
Qed.

Lemma Sale_ZeroValue_neutral_witness :
  Sale_eqb (Sale_ConflateWith (Sale_ZeroValue (sale 7 9)) (sale 1 500)) (sale 1 500) = true /\
  Sale_eqb (Sale_ConflateWith (sale 1 500) (Sale_ZeroValue (sale 7 9))) (sale 1 500) = true.
Proof.
  destruct (Sale_ZeroValue_neutral (sale 1 500) (sale 7 9)) as [Hl Hr].
  - vm_compute. reflexivity.
  - split; [apply Hl | apply Hr; left]; simpl; lia.
Defined.

(** C9 as stated fails, with [=] read as [==].  A sale stamped one nanosecond
    before the zero time comes out stamped with the zero time, on either side.
    A sale stamped at the zero instant in a Location that is not nil comes
    back as it is from [ZeroValue().ConflateWith(s)], but
    [s.ConflateWith(ZeroValue())] has the timestamp of [Sale{}], whose Location
    is nil.  And a sale whose dollars are a NaN is [==] to nothing. *)
Lemma Sale_ZeroValue_not_neutral :
  Sale_eqb (Sale_ConflateWith (Sale_ZeroValue (sale 1 (-1))) (sale 1 (-1))) (sale 1 (-1)) = false /\
  Sale_eqb (Sale_ConflateWith (sale 1 (-1)) (Sale_ZeroValue (sale 1 (-1)))) (sale 1 (-1)) = false /\
  Sale_eqb (Sale_ConflateWith (Sale_ZeroValue sale_at_zero_elsewhere) sale_at_zero_elsewhere)
           sale_at_zero_elsewhere = true /\
  Sale_eqb (Sale_ConflateWith sale_at_zero_elsewhere (Sale_ZeroValue sale_at_zero_elsewhere))
           sale_at_zero_elsewhere = false /\
  Sale_eqb (Sale_ConflateWith (Sale_ZeroValue (sale nan 500)) (sale nan 500)) (sale nan 500) = false.
Proof. repeat split; vm_compute; reflexivity. Qed.

(** ** C10: ConflateV2 keeps the latest value *)

Section V2_as_V3.

Context {T : Type} {gozero : GoZero T}.
Variable retryInterval : Duration.

#[local] Existing Instance Overwrite.

Lemma await_as_V3 w now (st : V2.state (T := T)) :
  V3.await w now (as_V3 st) = option_map as_V3 (V2.await w now st).
Proof.
  destruct w as [v|]; simpl.
  - destruct (V2.retryTimer st); reflexivity.
  - destruct (V2.retryCh st) as [c|]; [|reflexivity].
    destruct (tick c now (V2.timers st)); reflexivity.
Qed.

Lemma attempt_as_V3 ready now (st : V2.state (T := T)) :
  V3.attempt retryInterval ready now (as_V3 st)
  = (as_V3 (fst (V2.attempt retryInterval ready now st)),
     snd (V2.attempt retryInterval ready now st)).
Proof. destruct ready; destruct st; reflexivity. Qed.

Lemma iteration_as_V3 sl (st : V2.state (T := T)) :
  V3.iteration retryInterval sl (as_V3 st)
  = option_map (fun r => (as_V3 (fst r), snd r)) (V2.iteration retryInterval sl st).
Proof.
  unfold V3.iteration, V2.iteration. rewrite await_as_V3.
  destruct (V2.await (woke sl) (at_time sl) st) as [st0|]; simpl; [|reflexivity].
  rewrite attempt_as_V3. reflexivity.
Qed.

Lemma ConflateV2_as_V3 sched :
  forall st : V2.state (T := T),
  V3.ConflateV3 retryInterval sched (as_V3 st)
  = option_map (fun r => (as_V3 (fst r), snd r)) (V2.ConflateV2 retryInterval sched st).
Proof.
  induction sched as [|sl rest IH]; intros st; simpl; [reflexivity|].
  rewrite iteration_as_V3.
  destruct (V2.iteration retryInterval sl st) as [[st1 out]|]; simpl; [|reflexivity].
  rewrite IH.
  destruct (V2.ConflateV2 retryInterval rest st1) as [[st2 outs]|]; reflexivity.
Qed.

Lemma fold_from_Overwrite (start : T) g : V3.fold_from start g = V2.latest start g.
Proof.
  unfold V3.fold_from, V2.latest. revert start.
  induction g as [|v g IH]; intros start; [reflexivity|].
  cbn [fold_left]. rewrite IH, last_cons. destruct (last g); reflexivity.
Qed.

Lemma latest_nonempty (a b : T) g : g <> [] -> V2.latest a g = V2.latest b g.
Proof.
  unfold V2.latest. destruct (last g) eqn:E; [reflexivity|].
  apply last_None in E. congruence.
Qed.

Lemma deliveries_Overwrite (gs : list (list T)) :
  Forall (fun g => g <> []) gs ->
  forall start, V3.deliveries start gs = map (V2.latest go_zero) gs.
Proof.
  induction 1 as [|g gs Hg _ IH]; intros start; simpl; [reflexivity|].
  rewrite IH, fold_from_Overwrite. f_equal. apply latest_nonempty. exact Hg.
Qed.

End V2_as_V3.

(** C10.  In every run of ConflateV2, a value that is sent is the last value
    the producer has handed over by then; and the values sent are the last
    values of the non-empty groups the schedule is cut into by the successful
    sends, so that of each group only the last value reaches the consumer. *)
Theorem ConflateV2_delivers_latest {T : Type} {gozero : GoZero T}
  (retryInterval : Duration) (sched : list (slot T)) (st : V2.state) (ds : list T) :
  V2.ConflateV2 retryInterval sched V2.init = Some (st, ds) ->
  (forall sl st1 d,
     V2.iteration retryInterval sl st = Some (st1, Some d) ->
     last (submitted (sched ++ [sl])) = Some d) /\
  exists gs p,
    batches [] sched = (gs, p) /\
    concat gs ++ p = submitted sched /\
    Forall (fun g => g <> []) gs /\
    ds = map (V2.latest go_zero) gs.
Proof.
  intros Hrun.
  pose proof (ConflateV2_as_V3 retryInterval sched V2.init) as Hsim.
  rewrite Hrun in Hsim. simpl in Hsim.
  destruct (run_spec (conflater := Overwrite) retryInterval sched
              V3.init (as_V3 st) [] go_zero ds wf_init eq_refl)
    as (gs & p & Hb & Hwf & Hds & Hne & Hcm & Harmed);
    [ split; [discriminate | congruence] | exact Hsim | ].
  pose proof (batches_concat _ _ _ _ Hb) as Hcat. simpl in Hcat.
  split.
  - intros sl st1 d Hit.
    pose proof (iteration_as_V3 retryInterval sl st) as Hsim1.
    rewrite Hit in Hsim1. simpl in Hsim1.
    destruct (iteration_spec (conflater := Overwrite) retryInterval sl _ _ _ p _ Hwf Hcm Harmed Hsim1)
      as (Hp1 & _ & Hcase).
    destruct (consumer_ready sl).
    + destruct Hcase as ([= ->] & _).
      rewrite fold_from_Overwrite.
      unfold submitted. rewrite map_app, concat_app. simpl. rewrite app_nil_r.
      fold (submitted sched). rewrite <- Hcat, <- app_assoc.
      unfold V2.latest.
      destruct (last (p ++ received (woke sl))) as [x|] eqn:E.
      * simpl. destruct (p ++ received (woke sl)) as [|y l] eqn:E1; [congruence|].
        rewrite last_app, E. reflexivity.
      * apply last_None in E. congruence.
    + destruct Hcase as (Habs & _). discriminate Habs.
  - exists gs, p. split; [exact Hb|]. split; [exact Hcat|]. split; [exact Hne|].
    rewrite Hds. apply deliveries_Overwrite. exact Hne.
Qed.

(** The two sales of [two_sales] through ConflateV2: the retry sends the
    second sale, and the dollars of the first never reach the consumer. *)
Lemma ConflateV2_delivers_latest_witness :
  exists st,
    V2.ConflateV2 10 two_sales V2.init = Some (st, [sale 2 1000]) /\
    exists gs p,
      batches [] two_sales = (gs, p) /\
      concat gs ++ p = submitted two_sales /\
      Forall (fun g => g <> []) gs /\
      [sale 2 1000] = map (V2.latest go_zero) gs.
Proof.
  eexists. split; [vm_compute; reflexivity|].
  eapply (ConflateV2_delivers_latest 10 two_sales).
  vm_compute. reflexivity.
Defined.

(** * The rest of the package *)

(** ** Schedules without timer ticks *)

Lemma submitted_cons {T} (sl : slot T) rest :
  submitted (sl :: rest) = received (woke sl) ++ submitted rest.
Proof. reflexivity. Qed.

Lemma submitted_inputs_length {T} (sched : list (slot T)) :
  forallb is_input sched = true -> length (submitted sched) = length sched.
Proof.
  induction sched as [|sl rest IH]; [reflexivity|].
  simpl forallb. intros [Hsl Hrest]%andb_prop. rewrite submitted_cons, length_app.
  rewrite (IH Hrest). unfold is_input in Hsl. destruct (woke sl); [reflexivity|discriminate].
Qed.

Lemma filter_ready_inputs {T} (sched : list (slot T)) :
  forallb is_input sched = true ->
  forallb is_input (filter (fun sl => consumer_ready sl = true) sched) = true.
Proof.
  induction sched as [|sl rest IH]; [reflexivity|].
  simpl forallb. intros [Hsl Hrest]%andb_prop. rewrite filter_cons.
  destruct (decide (consumer_ready sl = true)); simpl; rewrite ?Hsl; auto.
Qed.

(** ** ConflateV1 *)

Section V1_facts.

Context {T : Type}.

Lemma ConflateV1_spec (sched : list (slot T)) :
  V1.ConflateV1 sched
  = if forallb is_input sched
    then Some (submitted (filter (fun sl => consumer_ready sl = true) sched))
    else None.
Proof.
  induction sched as [|sl rest IH]; [reflexivity|].
  simpl. rewrite IH. unfold V1.iteration, is_input. rewrite filter_cons.
  destruct (woke sl) as [v|] eqn:Hw; simpl; [|reflexivity].
  destruct (forallb _ rest); [|reflexivity].
  destruct (consumer_ready sl) eqn:Hr; simpl.
  - destruct (decide (true = true)); [|congruence].
    rewrite submitted_cons, Hw. reflexivity.
  - destruct (decide (false = true)); [discriminate|]. reflexivity.
Qed.

End V1_facts.

(** X1.  ConflateV1 runs on exactly the schedules whose every slot is an
    input, and what it sends is then the values of the slots at which the
    consumer was parked on [outCh], in order: a value that arrives while the
    consumer is busy is sent neither then nor later. *)
Theorem ConflateV1_delivers_when_ready {T : Type} (sched : list (slot T)) (ds : list T) :
  V1.ConflateV1 sched = Some ds <->
  forallb is_input sched = true /\
  ds = submitted (filter (fun sl => consumer_ready sl = true) sched).
Proof.
  rewrite ConflateV1_spec. destruct (forallb is_input sched); split.
  - intros [= <-]. split; reflexivity.
  - intros [_ ->]. reflexivity.
  - discriminate.
  - intros [Habs _]. discriminate Habs.
Qed.

(** X2.  ConflateV1 hands over every submitted value exactly when the consumer
    was parked at every arrival; otherwise it hands over strictly fewer values
    than were submitted. *)
Theorem ConflateV1_lossless_iff_always_ready {T : Type} (sched : list (slot T)) (ds : list T) :
  V1.ConflateV1 sched = Some ds ->
  (ds = submitted sched <-> forallb consumer_ready sched = true) /\
  (forallb consumer_ready sched = false ->
   (length ds < length (submitted sched))%nat).
Proof.
  intros Hrun. rewrite ConflateV1_spec in Hrun.
  destruct (forallb is_input sched) eqn:Hin; [|discriminate]. injection Hrun as <-.
  assert (forall l : list (slot T),
    (length (filter (fun sl => consumer_ready sl = true) l) <= length l)%nat /\
    (forallb consumer_ready l = true ->
       filter (fun sl => consumer_ready sl = true) l = l) /\
    (forallb consumer_ready l = false ->
       (length (filter (fun sl => consumer_ready sl = true) l) < length l)%nat))
    as Hfilter.
  { induction l as [|sl rest (IHle & IHall & IHsome)]; simpl.
    - split; [lia|]. split; [reflexivity|discriminate].
    - rewrite filter_cons. destruct (consumer_ready sl) eqn:Hr; simpl.
      + destruct (decide (true = true)); [|congruence]. simpl.
        split; [lia|]. split; [intros Hall; f_equal; auto | intros Hs; apply IHsome in Hs; lia].
      + destruct (decide (false = true)); [discriminate|].
        split; [lia|]. split; [discriminate | intros _; lia]. }
  destruct (Hfilter sched) as (Hle & Hall & Hsome).
  pose proof (submitted_inputs_length _ Hin) as Hlen.
  pose proof (submitted_inputs_length _ (filter_ready_inputs _ Hin)) as Hlen'.
  split; [split|].
  - intros Heq. destruct (forallb consumer_ready sched) eqn:E; [reflexivity|].
    specialize (Hsome eq_refl). apply (f_equal length) in Heq. lia.
  - intros Hr. rewrite (Hall Hr). reflexivity.
  - intros Hr. specialize (Hsome Hr). lia.
Qed.

(** Two sales, the consumer busy at the second: ConflateV1 drops it. *)
Lemma ConflateV1_lossless_iff_always_ready_witness :
  exists ds,
    V1.ConflateV1 second_sale_missed = Some ds /\
    (length ds < length (submitted second_sale_missed))%nat.
Proof.
  eexists. split; [reflexivity|].
  apply (ConflateV1_lossless_iff_always_ready second_sale_missed _ eq_refl).
  reflexivity.
Defined.

(** X3.  On a schedule without timer ticks ConflateV2 sends what ConflateV1
    sends, from any state: the two differ by the retries only. *)
Theorem ConflateV2_without_retries_is_ConflateV1 {T : Type} {gozero : GoZero T}
  (retryInterval : Duration) (sched : list (slot T)) :
  forallb is_input sched = true ->
  forall st : V2.state,
    option_map snd (V2.ConflateV2 retryInterval sched st) = V1.ConflateV1 sched.
Proof.
  induction sched as [|sl rest IH]; intros Hin st; [reflexivity|].
  simpl in Hin. apply andb_prop in Hin as [Hsl Hrest].
  unfold is_input in Hsl. simpl. unfold V2.iteration, V1.iteration.
  destruct (woke sl) as [v|]; [|discriminate]. simpl.
  assert (exists st0, (match V2.retryTimer st with
            | Some t => Some {| V2.lastMsg := v; V2.retryTimer := Some t;
                                V2.retryCh := None; V2.timers := Stop t (V2.timers st) |}
            | None => Some {| V2.lastMsg := v; V2.retryTimer := None;
                              V2.retryCh := V2.retryCh st; V2.timers := V2.timers st |}
            end) = Some st0 /\ V2.lastMsg st0 = v) as (st0 & -> & Hv)
    by (destruct (V2.retryTimer st); eexists; split; reflexivity).
  unfold V2.attempt, V1.attempt. destruct (consumer_ready sl); simpl.
  - rewrite <- (IH Hrest st0), Hv.
    destruct (V2.ConflateV2 retryInterval rest st0) as [[st2 outs]|]; reflexivity.
  - match goal with |- context [V2.ConflateV2 retryInterval rest ?s] =>
      rewrite <- (IH Hrest s);
      destruct (V2.ConflateV2 retryInterval rest s) as [[st2 outs]|]; reflexivity
    end.
Qed.

Lemma ConflateV2_without_retries_is_ConflateV1_witness :
  option_map snd (V2.ConflateV2 10 second_sale_missed V2.init)
  = V1.ConflateV1 second_sale_missed.
Proof.
  apply (ConflateV2_without_retries_is_ConflateV1 10 second_sale_missed eq_refl V2.init).
Defined.

(** ** ConflateV2 and ConflateV3 *)

(** X4.  ConflateV2 is ConflateV3 at the payload whose [ConflateWith] keeps the
    incoming value and whose [ZeroValue()] keeps the receiver: from
    corresponding states the two make the same runs, send the same values and
    end in corresponding states. *)
Theorem ConflateV2_is_ConflateV3_Overwrite {T : Type} {gozero : GoZero T}
  (retryInterval : Duration) (sched : list (slot T)) (st : V2.state) :
  as_V3 (V2.init (T := T)) = V3.init /\
  V3.ConflateV3 (conflater := Overwrite) retryInterval sched (as_V3 st)
  = option_map (fun r => (as_V3 (fst r), snd r)) (V2.ConflateV2 retryInterval sched st).
Proof. split; [reflexivity | apply ConflateV2_as_V3]. Qed.

(** ** The timers of ConflateV3 *)

(** X5.  In every reachable state at most one timer is pending, and it is the
    one that [retryTimer] points to and whose channel [retryCh] holds. *)
Theorem at_most_one_pending_timer {T : Type} {conflater : Conflater T} {gozero : GoZero T}
  (retryInterval : Duration) (st : V3.state (T := T)) (i j : nat) (tmi tmj : Timer) :
  reachable retryInterval st ->
  V3.timers st !! i = Some tmi -> status tmi = Armed ->
  V3.timers st !! j = Some tmj -> status tmj = Armed ->
  i = j /\ V3.retryTimer st = Some i /\ V3.retryCh st = Some i.
Proof.
  intros Hwf%reachable_wf Hi Hsi Hj Hsj.
  pose proof (wf_armed _ Hwf i tmi Hi Hsi) as Hci.
  pose proof (wf_armed _ Hwf j tmj Hj Hsj) as Hcj.
  split; [congruence|]. split; [apply (wf_ch _ Hwf); exact Hci | exact Hci].
Qed.

Lemma at_most_one_pending_timer_witness :
  1%nat = 1%nat /\
  V3.retryTimer two_sales_pending = Some 1%nat /\
  V3.retryCh two_sales_pending = Some 1%nat.
Proof.
  apply (at_most_one_pending_timer 10 two_sales_pending 1 1 (mkTimer 15 Armed) (mkTimer 15 Armed)).
  - exists (firstn 2 two_sales), []. vm_compute. reflexivity.
  - reflexivity.
  - reflexivity.
  - reflexivity.
  - reflexivity.
Defined.

Section Feasible.

Context {T : Type} {conflater : Conflater T} {gozero : GoZero T}.
Variable retryInterval : Duration.

#[local] Abbreviation state := (V3.state (T := T)).

Lemma settled_init : settled retryInterval None (V3.init (T := T)).
Proof. apply quiet_nil. Qed.

(** When the timer case of the first [select] can be taken. *)
Lemma await_Tick_settled prev (st : state) now :
  settled retryInterval prev st ->
  is_Some (V3.await Tick now st) <-> retry_allowed retryInterval prev (mkSlot now Tick true) = true.
Proof.
  unfold settled, retry_allowed. cbn [woke at_time]. intros Hs.
  destruct prev as [p|].
  - destruct (consumer_ready p); cbn [negb andb].
    + rewrite (quiet_no_Tick _ _ Hs). split; [intros [x Hx]; discriminate | discriminate].
    + destruct Hs as (c & Hch & Hc). cbn [V3.await]. rewrite Hch.
      destruct (tick c now (V3.timers st)) as [h|] eqn:Htick.
      * apply tick_Some in Htick as (tm & Htm & _ & Hw & _).
        rewrite Hc in Htm. injection Htm as <-. simpl in Hw.
        split; [intros _; apply Z.leb_le; exact Hw | intros _; eexists; reflexivity].
      * split; [intros [x Hx]; discriminate|].
        intros Hle%Z.leb_le.
        rewrite (tick_due c now _ _ Hc eq_refl) in Htick by exact Hle. discriminate.
  - rewrite (quiet_no_Tick _ _ Hs). split; [intros [x Hx]; discriminate | discriminate].
Qed.

Lemma iteration_settled prev sl (st : state) :
  wf st -> settled retryInterval prev st ->
  (is_Some (V3.iteration retryInterval sl st) <-> retry_allowed retryInterval prev sl = true) /\
  forall st1 out,
    V3.iteration retryInterval sl st = Some (st1, out) ->
    wf st1 /\ settled retryInterval (Some sl) st1.
Proof.
  intros Hwf Hs. split.
  - unfold V3.iteration. destruct (woke sl) as [v|] eqn:Hw.
    + destruct (await_Recv_total st v (at_time sl)) as [st0 ->].
      unfold retry_allowed. rewrite Hw. split; [reflexivity | intros _; eexists; reflexivity].
    + assert (retry_allowed retryInterval prev sl
              = retry_allowed retryInterval prev (mkSlot (at_time sl) Tick true)) as ->
        by (unfold retry_allowed; rewrite Hw; reflexivity).
      rewrite <- (await_Tick_settled prev st (at_time sl) Hs).
      destruct (V3.await Tick (at_time sl) st); split; intros [x Hx]; try discriminate;
        eexists; reflexivity.
  - intros st1 out Hit. unfold V3.iteration in Hit.
    destruct (V3.await (woke sl) (at_time sl) st) as [st0|] eqn:Haw; [|discriminate].
    destruct (await_wf_quiet _ _ _ _ Hwf Haw) as [Hwf0 Hq0].
    injection Hit as Hit. unfold settled.
    destruct (consumer_ready sl).
    + pose proof (attempt_ready_wf retryInterval (at_time sl) st0 Hwf0) as Hwf1.
      rewrite Hit in Hwf1. split; [exact Hwf1|].
      simpl in Hit. injection Hit as <- _. exact Hq0.
    + destruct (attempt_busy_wf retryInterval (at_time sl) st0 Hwf0 Hq0) as [Hwf1 _].
      destruct (attempt_busy_frame retryInterval (at_time sl) st0) as (_ & _ & _ & Hch & Hnew).
      rewrite Hit in Hwf1, Hch, Hnew. split; [exact Hwf1|].
      eexists. split; [exact Hch | exact Hnew].
Qed.

Lemma ConflateV3_settled sched :
  forall prev (st : state),
  wf st -> settled retryInterval prev st ->
  is_Some (V3.ConflateV3 retryInterval sched st) <-> feasible retryInterval prev sched = true.
Proof.
  induction sched as [|sl rest IH]; intros prev st Hwf Hs; simpl.
  - split; [reflexivity | intros _; eexists; reflexivity].
  - destruct (iteration_settled prev sl st Hwf Hs) as [Hiff Hnext].
    destruct (V3.iteration retryInterval sl st) as [[st1 out]|] eqn:Hit.
    + destruct (Hnext st1 out eq_refl) as [Hwf1 Hs1].
      assert (retry_allowed retryInterval prev sl = true) as ->
        by (apply Hiff; eexists; reflexivity).
      simpl. rewrite <- (IH (Some sl) st1 Hwf1 Hs1).
      destruct (V3.ConflateV3 retryInterval rest st1) as [[st2 outs]|];
        split; intros [x Hx]; try discriminate; eexists; reflexivity.
    + destruct (retry_allowed retryInterval prev sl) eqn:Hra.
      * assert (is_Some (@None (state * option T))) as [x Hx] by (apply Hiff; reflexivity).
        discriminate.
      * simpl. split; [intros [x Hx]; discriminate | discriminate].
Qed.

(** Every iteration sends a value or creates a timer, and creates no timer
    otherwise. *)
Lemma ConflateV3_counts sched :
  forall (st st' : state) ds,
  V3.ConflateV3 retryInterval sched st = Some (st', ds) ->
  length (V3.timers st') = (length (V3.timers st) + length (failed_attempts sched))%nat /\
  (length ds + length (failed_attempts sched))%nat = length sched /\
  (V3.retryTimer st' = None <-> V3.retryTimer st = None /\ failed_attempts sched = []).
Proof.
  induction sched as [|sl rest IH]; intros st st' ds Hrun; simpl in Hrun.
  - injection Hrun as <- <-. unfold failed_attempts. simpl.
    split; [lia|]. split; [reflexivity|]. tauto.
  - destruct (V3.iteration retryInterval sl st) as [[st1 out]|] eqn:Hit; [|discriminate].
    destruct (V3.ConflateV3 retryInterval rest st1) as [[st2 outs]|] eqn:Hrest; [|discriminate].
    injection Hrun as <- <-.
    destruct (IH _ _ _ Hrest) as (Hlen & Hcount & Hnil).
    unfold V3.iteration in Hit.
    destruct (V3.await (woke sl) (at_time sl) st) as [st0|] eqn:Haw; [|discriminate].
    assert (length (V3.timers st0) = length (V3.timers st) /\
            V3.retryTimer st0 = V3.retryTimer st) as [Hlen0 Ht0].
    { destruct (woke sl) as [v|]; simpl in Haw.
      - destruct (V3.retryTimer st) as [t|]; injection Haw as <-; simpl;
          [rewrite Stop_length|]; split; reflexivity.
      - destruct (V3.retryCh st) as [c|]; [|discriminate].
        destruct (tick c (at_time sl) (V3.timers st)) as [h|] eqn:Htick; [|discriminate].
        injection Haw as <-. simpl. rewrite (tick_length _ _ _ _ Htick).
        split; reflexivity. }
    unfold failed_attempts in *. rewrite filter_cons.
    injection Hit as Hit. unfold V3.attempt in Hit.
    destruct (consumer_ready sl); simpl in Hit; injection Hit as <- <-; simpl in *.
    + destruct (decide (true = false)); [discriminate|].
      rewrite Hlen, Hlen0, Hnil, Ht0. split; [lia|]. split; [lia|]. tauto.
    + destruct (decide (false = false)); [|congruence].
      rewrite Hlen, length_app, Hlen0. simpl. split; [lia|]. split; [lia|].
      rewrite Hnil. split; [intros [Habs _]; discriminate | intros [_ Habs]; discriminate].
Qed.

End Feasible.

(** X6.  ConflateV3 can follow a schedule from its initial state exactly when
    every timer tick in it comes right after an iteration whose send failed
    and at least [retryInterval] later: the relay retries only what it failed
    to hand over, never early, never after a successful send and never before
    the first value. *)
Theorem ConflateV3_runs_iff_feasible {T : Type} {conflater : Conflater T} {gozero : GoZero T}
  (retryInterval : Duration) (sched : list (slot T)) :
  is_Some (V3.ConflateV3 retryInterval sched V3.init) <->
  feasible retryInterval None sched = true.
Proof. apply ConflateV3_settled; [apply wf_init | apply settled_init]. Qed.

(** X7.  In a run of ConflateV3 from its initial state every iteration either
    sends a value or creates a timer: the timers created are as many as the
    failed sends, the values sent as many as the other iterations, and
    [retryTimer] is nil exactly as long as no send has failed. *)
Theorem one_timer_per_failed_attempt {T : Type} {conflater : Conflater T} {gozero : GoZero T}
  (retryInterval : Duration) (sched : list (slot T)) (st : V3.state) (ds : list T) :
  V3.ConflateV3 retryInterval sched V3.init = Some (st, ds) ->
  length (V3.timers st) = length (failed_attempts sched) /\
  (length ds + length (failed_attempts sched))%nat = length sched /\
  (V3.retryTimer st = None <-> failed_attempts sched = []).
Proof.
  intros Hrun. destruct (ConflateV3_counts retryInterval sched _ _ _ Hrun) as (Hlen & Hcount & Hnil).
  simpl in Hlen, Hnil. split; [exact Hlen|]. split; [exact Hcount|].
  rewrite Hnil. tauto.
Qed.

Lemma one_timer_per_failed_attempt_witness :
  exists st ds,
    V3.ConflateV3 10 two_sales V3.init = Some (st, ds) /\
    length (V3.timers st) = length (failed_attempts two_sales) /\
    (length ds + length (failed_attempts two_sales))%nat = length two_sales /\
    (V3.retryTimer st = None <-> failed_attempts two_sales = []).
Proof.
  eexists _, _. split; [vm_compute; reflexivity|].
  apply (one_timer_per_failed_attempt 10 two_sales). vm_compute. reflexivity.
Defined.

(** ** What the consumer can rebuild from the values sent *)

Section Aggregate.

Context {T : Type} {conflater : Conflater T} {gozero : GoZero T}.
Hypothesis law : ZeroValueIsZero T.
Hypothesis ConflateWith_assoc :
  forall a b c : T, ConflateWith (ConflateWith a b) c = ConflateWith a (ConflateWith b c).
Hypothesis ConflateWith_zero_r : forall a : T, ConflateWith a go_zero = a.

Lemma ConflateWith_fold (g : list T) :
  forall a b, ConflateWith a (V3.fold_from b g) = V3.fold_from (ConflateWith a b) g.
Proof.
  unfold V3.fold_from. induction g as [|v g IH]; intros a b; simpl; [reflexivity|].
  rewrite IH, ConflateWith_assoc. reflexivity.
Qed.

Lemma fold_of_folds (gs : list (list T)) :
  forall a, V3.fold_from a (map (V3.fold_from go_zero) gs) = V3.fold_from a (concat gs).
Proof.
  induction gs as [|g gs IH]; intros a; simpl; [reflexivity|].
  rewrite fold_from_app. unfold V3.fold_from at 1. simpl.
  fold (V3.fold_from (ConflateWith a (V3.fold_from go_zero g)) (map (V3.fold_from go_zero) gs)).
  rewrite ConflateWith_fold, ConflateWith_zero_r. apply IH.
Qed.

End Aggregate.

(** X8.  For a payload whose [ConflateWith] is associative, whose zero value
    is neutral on the right and whose [ZeroValue()] returns it: at the top of
    every iteration, merging the values sent so far, in order, and then the
    accumulator gives the merge of all the values submitted.  Whatever the
    grouping, the consumer rebuilds the same total. *)
Theorem aggregate_preserved {T : Type} {conflater : Conflater T} {gozero : GoZero T}
  (retryInterval : Duration) (sched : list (slot T)) (st : V3.state) (ds : list T) :
  ZeroValueIsZero T ->
  (forall a b c : T, ConflateWith (ConflateWith a b) c = ConflateWith a (ConflateWith b c)) ->
  (forall a : T, ConflateWith a go_zero = a) ->
  V3.ConflateV3 retryInterval sched V3.init = Some (st, ds) ->
  ConflateWith (V3.fold_from go_zero ds) (V3.conflatedMessage st)
  = V3.fold_from go_zero (submitted sched).
Proof.
  intros law Hassoc Hzero Hrun.
  destruct (run_spec retryInterval sched V3.init st [] go_zero ds wf_init)
    as (gs & p & Hb & _ & Hds & _ & Hcm & _);
    [ reflexivity | split; [discriminate | congruence] | exact Hrun | ].
  apply batches_concat in Hb. simpl in Hb. rewrite <- Hb.
  rewrite Hcm, (next_start_lawful law), Hds, (deliveries_lawful law).
  unfold V3.combine_fold. rewrite (identity_zero law).
  rewrite (ConflateWith_fold Hassoc), Hzero, (fold_of_folds Hassoc Hzero).
  symmetry. apply fold_from_app.
Qed.

Lemma aggregate_preserved_witness :
  exists st ds,
    V3.ConflateV3 (conflater := AnyFailed_Conflater) 10 three_events
      (V3.init (gozero := AnyFailed_GoZero)) = Some (st, ds) /\
    orb (V3.fold_from (conflater := AnyFailed_Conflater) false ds) (V3.conflatedMessage st)
    = V3.fold_from (conflater := AnyFailed_Conflater) false (submitted three_events).
Proof.
  eexists _, _. split; [vm_compute; reflexivity|].
  apply (aggregate_preserved (conflater := AnyFailed_Conflater)
           (gozero := AnyFailed_GoZero) 10 three_events).
  - intros x. reflexivity.
  - intros a b c. symmetry. apply orb_assoc.
  - intros a. apply orb_false_r.
  - vm_compute. reflexivity.
Defined.

(** ** Conflated sales *)


(** [maxTime] returns its second argument unless the first is later. *)
Lemma maxTime_not_later (t1 t2 : time.Time) :
  time.instant t1 <= time.instant t2 -> maxTime t1 t2 = t2.
Proof.
  intros Hle. unfold maxTime, time.After, After.
  destruct (time.instant t2 <? time.instant t1) eqn:E; [lia | reflexivity].
Qed.

Lemma Sale_fold_fields (g : list Sale) :
  forall s,
    dollars (V3.fold_from s g) = fold_left PrimFloat.add (map dollars g) (dollars s) /\
    timestamp (V3.fold_from s g) = fold_left maxTime (map timestamp g) (timestamp s).
Proof.
  unfold V3.fold_from. induction g as [|v g IH]; intros s; [split; reflexivity|].
  cbn [fold_left map]. destruct (IH (ConflateWith s v)) as [-> ->].
  change (ConflateWith s v) with (Sale_ConflateWith s v).
  cbn [Sale_ConflateWith dollars timestamp]. split; reflexivity.
Qed.






(** ** A consumer that keeps up *)

Section Keeping_up.

Variable retryInterval : Duration.

Lemma Sale_zero_l (s : Sale) :
  0 <= time.instant (timestamp s) -> is_neg_zero (dollars s) = false ->
  Sale_ConflateWith go_zero s = s.
Proof.
  intros Ht Hd. destruct s as [d t]. simpl in *.
  unfold Sale_ConflateWith. simpl.
  rewrite (float_add_zero_l d Hd), (maxTime_zero_l t Ht). reflexivity.
Qed.

Lemma ConflateV3_Sale_keeping_up (sched : list (slot Sale)) :
  forall (st st' : V3.state) ds,
  wf st -> quiet (V3.timers st) -> V3.conflatedMessage st = go_zero ->
  forallb consumer_ready sched = true ->
  Forall (fun s => 0 <= time.instant (timestamp s) /\ is_neg_zero (dollars s) = false)
         (submitted sched) ->
  V3.ConflateV3 retryInterval sched st = Some (st', ds) ->
  ds = submitted sched /\ forallb is_input sched = true /\
  V3.conflatedMessage st' = go_zero /\ quiet (V3.timers st').
Proof.
  induction sched as [|sl rest IH]; intros st st' ds Hwf Hq Hcm Hready Hok Hrun;
    simpl in Hrun.
  - injection Hrun as <- <-. repeat split; assumption.
  - destruct (V3.iteration retryInterval sl st) as [[st1 out]|] eqn:Hit; [|discriminate].
    destruct (V3.ConflateV3 retryInterval rest st1) as [[st2 outs]|] eqn:Hrest; [|discriminate].
    injection Hrun as <- <-.
    simpl in Hready. apply andb_prop in Hready as [Hsl Hready].
    unfold V3.iteration in Hit.
    destruct (woke sl) as [v|] eqn:Hw; [|rewrite (quiet_no_Tick _ _ Hq) in Hit; discriminate].
    rewrite submitted_cons, Hw in Hok |- *. simpl in Hok |- *.
    inversion Hok as [|? ? [Hv1 Hv2] Hok']; subst.
    destruct (V3.await (Recv v) (at_time sl) st) as [st0|] eqn:Haw; [|discriminate].
    destruct (await_wf_quiet _ _ _ _ Hwf Haw) as [Hwf0 Hq0].
    pose proof (await_conflated _ _ _ _ Haw) as Hcm0. simpl in Hcm0.
    rewrite Hcm in Hcm0. change (V3.conflatedMessage st0 = Sale_ConflateWith go_zero v) in Hcm0.
    rewrite (Sale_zero_l v Hv1 Hv2) in Hcm0.
    rewrite Hsl in Hit. unfold V3.attempt in Hit. injection Hit as <- <-.
    pose proof (attempt_ready_wf retryInterval (at_time sl) st0 Hwf0) as Hwf1.
    unfold V3.attempt in Hwf1. cbn [fst] in Hwf1.
    destruct (IH _ st2 outs Hwf1 Hq0 eq_refl Hready Hok' Hrest) as (-> & Hin & Hcm' & Hq').
    unfold is_input at 1. rewrite Hw, Hcm0. simpl. repeat split; assumption.
Qed.

End Keeping_up.

(** X10.  When the consumer is parked on [outCh] at every iteration, and no
    sale is stamped before the zero time or is worth negative zero,
    ConflateV3 forwards every sale as it is: every slot of the schedule is an
    input, the values sent are the values submitted, and the accumulator is
    back at its zero value. *)
Theorem ConflateV3_forwards_when_consumer_keeps_up
  (retryInterval : Duration) (sched : list (slot Sale)) (st : V3.state) (ds : list Sale) :
  forallb consumer_ready sched = true ->
  Forall (fun s => 0 <= time.instant (timestamp s) /\ is_neg_zero (dollars s) = false)
         (submitted sched) ->
  V3.ConflateV3 retryInterval sched V3.init = Some (st, ds) ->
  ds = submitted sched /\ forallb is_input sched = true /\
  V3.conflatedMessage st = go_zero.
Proof.
  intros Hready Hok Hrun.
  destruct (ConflateV3_Sale_keeping_up retryInterval sched V3.init st ds
              wf_init quiet_nil eq_refl Hready Hok Hrun) as (H1 & H2 & H3 & _).
  repeat split; assumption.
Qed.

Lemma ConflateV3_forwards_when_consumer_keeps_up_witness :
  exists st,
    V3.ConflateV3 10 [mkSlot 0 (Recv (sale 1 500)) true; mkSlot 5 (Recv (sale 2 1000)) true]
      V3.init = Some (st, [sale 1 500; sale 2 1000]) /\
    V3.conflatedMessage st = go_zero.
Proof.
  eexists. split; [vm_compute; reflexivity|].
  eapply (ConflateV3_forwards_when_consumer_keeps_up 10
            [mkSlot 0 (Recv (sale 1 500)) true; mkSlot 5 (Recv (sale 2 1000)) true]).
  - reflexivity.
  - repeat constructor; simpl; lia.
  - vm_compute. reflexivity.
Defined.

(** ** The producer *)

(** [Add] is exact as long as its result is an instant a [Time] can hold. *)
Lemma Add_exact (t : time.Time) (d : Duration) :
  time.representable (time.instant t + d) ->
  time.Add t d = {| time.instant := time.instant t + d; time.loc := time.loc t |}.
Proof.
  unfold time.representable, time.Add, time.sec, time.nsec, time.addSec.
  set (B := time.second). set (i := time.instant t). intros Hrep.
  assert (0 < B) as HB by (subst B; unfold time.second; lia).
  pose proof (Z.div_mod i B ltac:(lia)) as Hi.
  pose proof (Z.mod_pos_bound i B HB) as Hm.
  pose proof (Z.quot_rem' d B) as Hd.
  pose proof (Z.rem_bound_abs d B ltac:(lia)) as Hr.
  assert (forall q r, i + d = B * (i / B + q) + r -> 0 <= r < B ->
          time.minInt64 <= i / B + q <= time.maxInt64) as Hq.
  { intros q r Heq Hrange.
    rewrite (Z.div_unique_pos (i + d) B (i / B + q) r); [exact Hrep | lia | lia]. }
  destruct (B <=? i mod B + Z.rem d B) eqn:E1; [|destruct (i mod B + Z.rem d B <? 0) eqn:E2];
    cbv beta iota zeta; f_equal.
  - specialize (Hq (Z.quot d B + 1) (i mod B + Z.rem d B - B) ltac:(lia) ltac:(lia)).
    destruct (time.minInt64 <=? i / B + (Z.quot d B + 1)) eqn:L1; [|lia].
    destruct (i / B + (Z.quot d B + 1) <=? time.maxInt64) eqn:L2; [|lia].
    simpl. lia.
  - specialize (Hq (Z.quot d B - 1) (i mod B + Z.rem d B + B) ltac:(lia) ltac:(lia)).
    destruct (time.minInt64 <=? i / B + (Z.quot d B - 1)) eqn:L1; [|lia].
    destruct (i / B + (Z.quot d B - 1) <=? time.maxInt64) eqn:L2; [|lia].
    simpl. lia.
  - specialize (Hq (Z.quot d B) (i mod B + Z.rem d B) ltac:(lia) ltac:(lia)).
    destruct (time.minInt64 <=? i / B + Z.quot d B) eqn:L1; [|lia].
    destruct (i / B + Z.quot d B <=? time.maxInt64) eqn:L2; [|lia].
    simpl. lia.
Qed.

Lemma representable_between (a b c : Z) :
  time.representable a -> time.representable b -> a <= c <= b -> time.representable c.
Proof.
  unfold time.representable. intros Ha Hb Hc.
  assert (0 < time.second) as HB by (unfold time.second; lia).
  pose proof (Z.div_le_mono a c time.second HB ltac:(lia)).
  pose proof (Z.div_le_mono c b time.second HB ltac:(lia)). lia.
Qed.

Lemma producer_length (n : nat) : forall g, length (producer n g) = n.
Proof. induction n as [|n IH]; intros g; simpl; [reflexivity | rewrite IH; reflexivity]. Qed.

Lemma producer_lookup (n : nat) :
  forall g (k : nat) s,
  time.representable (time.instant (currTimestamp g)) ->
  time.representable (time.instant (currTimestamp g) + Z.of_nat n * saleInterval) ->
  producer n g !! k = Some s ->
  timestamp s
  = time.mkTime (time.instant (currTimestamp g) + (Z.of_nat k + 1) * saleInterval)
                (time.loc (currTimestamp g)).
Proof.
  induction n as [|n IH]; intros g k s Hlo Hhi Hk; simpl in Hk; [discriminate|].
  assert (0 < saleInterval) as Hpos by (unfold saleInterval; lia).
  assert (time.representable (time.instant (currTimestamp g) + saleInterval)) as Hnext
    by (apply (representable_between _ _ _ Hlo Hhi); nia).
  rewrite (Add_exact _ _ Hnext) in Hk.
  destruct k as [|k]; simpl in Hk.
  - injection Hk as <-. cbn [timestamp]. f_equal; lia.
  - set (g' := {| currDollar := (currDollar g + 1)%float;
                  currTimestamp :=
                    time.mkTime (time.instant (currTimestamp g) + saleInterval)
                                (time.loc (currTimestamp g)) |}) in Hk.
    assert (time.representable
              (time.instant (currTimestamp g') + Z.of_nat n * saleInterval)) as Hhi'.
    { subst g'. cbn [currTimestamp time.instant].
      replace (_ + _ + _) with
        (time.instant (currTimestamp g) + Z.of_nat (S n) * saleInterval) by lia.
      exact Hhi. }
    rewrite (IH g' k s Hnext Hhi' Hk). subst g'.
    cbn [currTimestamp time.instant time.loc]. f_equal; lia.
Qed.

Lemma producer_nondecreasing (n : nat) :
  forall g,
  time.representable (time.instant (currTimestamp g)) ->
  time.representable (time.instant (currTimestamp g) + Z.of_nat n * saleInterval) ->
  nondecreasing_from (time.instant (currTimestamp g))
    (map time.instant (map timestamp (producer n g))).
Proof.
  induction n as [|n IH]; intros g Hlo Hhi; simpl; [exact I|].
  assert (0 < saleInterval) as Hpos by (unfold saleInterval; lia).
  assert (time.representable (time.instant (currTimestamp g) + saleInterval)) as Hnext
    by (apply (representable_between _ _ _ Hlo Hhi); nia).
  rewrite (Add_exact _ _ Hnext). simpl. split; [lia|].
  apply (IH {| currDollar := (currDollar g + 1)%float;
               currTimestamp := time.mkTime (time.instant (currTimestamp g) + saleInterval)
                                            (time.loc (currTimestamp g)) |}).
  - exact Hnext.
  - cbn [currTimestamp time.instant]. replace (_ + _ + _) with
      (time.instant (currTimestamp g) + Z.of_nat (S n) * saleInterval) by lia. exact Hhi.
Qed.

Lemma nondecreasing_app (l1 l2 : list Time) :
  forall a,
  nondecreasing_from a (l1 ++ l2) ->
  nondecreasing_from a l1 /\ nondecreasing_from (default a (last l1)) l2.
Proof.
  induction l1 as [|x l1 IH]; intros a Hnd; simpl in *; [split; [exact I | exact Hnd]|].
  destruct Hnd as [Hax Hnd]. destruct (IH x Hnd) as [H1 H2].
  split; [split; assumption|].
  rewrite last_cons. destruct (last l1); exact H2.
Qed.

Lemma nondecreasing_weaken (l : list Time) a b :
  b <= a -> nondecreasing_from a l -> nondecreasing_from b l.
Proof. destruct l; simpl; [trivial|]. intros Hba [Hax Hnd]. split; [lia | exact Hnd]. Qed.

Lemma nondecreasing_last (l : list Time) :
  forall a, nondecreasing_from a l ->
  a <= default a (last l) /\ fold_left Z.max l a = default a (last l).
Proof.
  induction l as [|x l IH]; intros a Hnd; simpl in *; [split; [lia | reflexivity]|].
  destruct Hnd as [Hax Hnd]. destruct (IH x Hnd) as [Hle Hfold].
  rewrite last_cons. replace (Z.max a x) with x by lia. rewrite Hfold.
  destruct (last l); simpl in *; split; try reflexivity; lia.
Qed.

(** Over stamps that come in order [maxTime] keeps the last one. *)
Lemma fold_maxTime_last (l : list time.Time) :
  forall a,
  nondecreasing_from (time.instant a) (map time.instant l) ->
  fold_left maxTime l a = default a (last l).
Proof.
  induction l as [|x l IH]; intros a Hnd; simpl in *; [reflexivity|].
  destruct Hnd as [Hax Hnd]. rewrite (maxTime_not_later _ _ Hax), (IH x Hnd).
  rewrite last_cons. destruct (last l); reflexivity.
Qed.

(** Consecutive non-empty groups of sales stamped in order, none before the
    zero time: each conflated sale is stamped as the last sale of its group. *)
Lemma groups_stamped_as_last (gs : list (list Sale)) :
  forall a rest,
  0 <= a ->
  nondecreasing_from a (map time.instant (map timestamp (concat gs ++ rest))) ->
  Forall (fun g => g <> []) gs ->
  Forall (fun g => last (map timestamp g) = Some (timestamp (V3.combine_fold g))) gs.
Proof.
  induction gs as [|g gs IH]; intros a rest Ha Hnd Hne; [constructor|].
  inversion Hne as [|? ? Hg Hne']; subst.
  simpl in Hnd. rewrite <- app_assoc, !map_app in Hnd.
  apply nondecreasing_app in Hnd as [Hg1 Hrest]. rewrite <- !map_app in Hrest.
  destruct (nondecreasing_last _ _ Hg1) as [Hle _].
  constructor.
  - unfold V3.combine_fold. destruct (Sale_fold_fields g V3.identity) as [_ ->].
    change (timestamp V3.identity) with time.zero.
    rewrite (fold_maxTime_last (map timestamp g) time.zero
               (nondecreasing_weaken _ _ 0 Ha Hg1)).
    destruct (last (map timestamp g)) as [x|] eqn:E; [reflexivity|].
    apply last_None in E. destruct g; [congruence | discriminate E].
  - apply (IH (default a (last (map time.instant (map timestamp g)))) rest);
      [exact (Z.le_trans _ _ _ Ha Hle) | exact Hrest | exact Hne'].
Qed.

(** X11.  As long as the stamps stay among the instants a [time.Time] can
    hold, the [k]-th sale the producer sends (counting from 0) is stamped
    [k + 1] sale intervals after [currTimestamp]'s starting value, in the same
    Location, so the stamps increase by [saleInterval] from one sale to the
    next; the first [n] sales are [n] sales. *)
Theorem producer_timestamps (n : nat) (g : till) :
  time.representable (time.instant (currTimestamp g)) ->
  time.representable (time.instant (currTimestamp g) + Z.of_nat n * saleInterval) ->
  length (producer n g) = n /\
  forall (k : nat) (s : Sale),
    producer n g !! k = Some s ->
    timestamp s
    = time.mkTime (time.instant (currTimestamp g) + (Z.of_nat k + 1) * saleInterval)
                  (time.loc (currTimestamp g)).
Proof.
  intros Hlo Hhi. split; [apply producer_length|].
  intros k s. apply producer_lookup; assumption.
Qed.

Lemma producer_timestamps_witness :
  length (producer 2 (till_init (time.mkTime 1000 None))) = 2%nat /\
  forall (k : nat) (s : Sale),
    producer 2 (till_init (time.mkTime 1000 None)) !! k = Some s ->
    timestamp s = time.mkTime (1000 + (Z.of_nat k + 1) * saleInterval) None.
Proof.
  apply (producer_timestamps 2 (till_init (time.mkTime 1000 None))).
  - vm_compute. split; discriminate.
  - vm_compute. split; discriminate.
Defined.

(** X12.  The sales of [makeSale] through ConflateV3, the program of
    [main.go]: if the clock started no earlier than the zero time and the
    stamps stay among the instants a [time.Time] can hold, every sale the
    consumer receives is stamped as the last of the sales merged into it, the
    most recent one made before the handoff. *)
Theorem delivered_sale_has_latest_timestamp
  (retryInterval : Duration) (initTime : time.Time) (n : nat)
  (sched : list (slot Sale)) (st : V3.state) (ds : list Sale) :
  0 <= time.instant initTime ->
  time.representable (time.instant initTime + Z.of_nat n * saleInterval) ->
  submitted sched = producer n (till_init initTime) ->
  V3.ConflateV3 retryInterval sched V3.init = Some (st, ds) ->
  exists gs p,
    batches [] sched = (gs, p) /\
    Forall2 (fun d g => last (map timestamp g) = Some (timestamp d)) ds gs.
Proof.
  intros Hinit Hhi Hsub Hrun.
  assert (time.representable (time.instant initTime)) as Hlo.
  { assert (0 < time.second) as HB by (unfold time.second; lia).
    assert (0 <= saleInterval) by (unfold saleInterval; lia).
    unfold time.representable in *. split.
    - pose proof (Z.div_pos (time.instant initTime) time.second Hinit HB).
      unfold time.minInt64. lia.
    - pose proof (Z.div_le_mono (time.instant initTime)
                    (time.instant initTime + Z.of_nat n * saleInterval)
                    time.second HB ltac:(nia)). lia. }
  destruct (run_spec retryInterval sched V3.init st [] go_zero ds wf_init)
    as (gs & p & Hb & _ & Hds & Hne & _);
    [ reflexivity | split; [discriminate | congruence] | exact Hrun | ].
  exists gs, p. split; [exact Hb|].
  rewrite (deliveries_lawful Sale_zero_value_is_zero) in Hds. subst ds.
  apply batches_concat in Hb. simpl in Hb.
  pose proof (producer_nondecreasing n (till_init initTime) Hlo Hhi) as Hnd.
  rewrite <- Hsub, <- Hb in Hnd. simpl in Hnd.
  pose proof (groups_stamped_as_last gs (time.instant initTime) p Hinit Hnd Hne) as Hall.
  clear - Hall. induction Hall as [|g gs Hg _ IH]; simpl; constructor; assumption.
Qed.

(** Two sales made from a clock started at 1000, merged and handed over. *)
Lemma delivered_sale_has_latest_timestamp_witness :
  exists st ds gs p,
    V3.ConflateV3 10 two_made_sales V3.init = Some (st, ds) /\
    batches [] two_made_sales = (gs, p) /\
    Forall2 (fun d g => last (map timestamp g) = Some (timestamp d)) ds gs.
Proof.
  assert (exists st ds, V3.ConflateV3 10 two_made_sales V3.init = Some (st, ds))
    as (st & ds & Hrun) by (eexists _, _; vm_compute; reflexivity).
  destruct (delivered_sale_has_latest_timestamp 10 (time.mkTime 1000 None) 2
              two_made_sales st ds)
    as (gs & p & Hb & Hall).
  - simpl. lia.
  - vm_compute. split; discriminate.
  - vm_compute. reflexivity.
  - exact Hrun.
  - exists st, ds, gs, p. split; [exact Hrun|]. split; [exact Hb | exact Hall].
Defined.

(** ** More on ConflateV2 *)

Section V2_facts.

Context {T : Type} {gozero : GoZero T}.
Variable retryInterval : Duration.

#[local] Existing Instance Overwrite.

Lemma latest_app (a : T) l1 l2 :
  V2.latest a (l1 ++ l2) = V2.latest (V2.latest a l1) l2.
Proof.
  unfold V2.latest. rewrite last_app. destruct (last l2); reflexivity.
Qed.

(** [lastMsg] is the last value received, if any was. *)
Lemma ConflateV2_lastMsg (sched : list (slot T)) :
  forall (st st' : V2.state) ds,
  V2.ConflateV2 retryInterval sched st = Some (st', ds) ->
  V2.lastMsg st' = V2.latest (V2.lastMsg st) (submitted sched).
Proof.
  induction sched as [|sl rest IH]; intros st st' ds Hrun; simpl in Hrun.
  - injection Hrun as <- _. reflexivity.
  - destruct (V2.iteration retryInterval sl st) as [[st1 out]|] eqn:Hit; [|discriminate].
    destruct (V2.ConflateV2 retryInterval rest st1) as [[st2 outs]|] eqn:Hrest; [|discriminate].
    injection Hrun as <- _. rewrite (IH _ _ _ Hrest), submitted_cons, latest_app.
    f_equal. unfold V2.iteration in Hit.
    destruct (V2.await (woke sl) (at_time sl) st) as [st0|] eqn:Haw; [|discriminate].
    injection Hit as Hit.
    assert (V2.lastMsg st1 = V2.lastMsg st0) as ->
      by (unfold V2.attempt in Hit; destruct (consumer_ready sl);
          injection Hit as <- _; reflexivity).
    destruct (woke sl) as [v|]; simpl in Haw.
    + destruct (V2.retryTimer st); injection Haw as <-; reflexivity.
    + destruct (V2.retryCh st) as [c|]; [|discriminate].
      destruct (tick c (at_time sl) (V2.timers st)); [|discriminate].
      injection Haw as <-. reflexivity.
Qed.

(** The timer invariants of ConflateV3 hold of ConflateV2's variables. *)
Lemma ConflateV2_run_spec (sched : list (slot T)) (st : V2.state (T := T)) ds :
  V2.ConflateV2 retryInterval sched V2.init = Some (st, ds) ->
  wf (as_V3 st) /\ (V3.armed (as_V3 st) = true <-> pending sched <> []).
Proof.
  intros Hrun.
  pose proof (ConflateV2_as_V3 retryInterval sched V2.init) as Hsim.
  rewrite Hrun in Hsim. simpl in Hsim.
  destruct (run_spec retryInterval sched V3.init (as_V3 st) [] go_zero ds wf_init eq_refl)
    as (gs & p & Hb & Hwf & _ & _ & _ & Harmed);
    [ split; [discriminate | congruence] | exact Hsim | ].
  unfold pending. rewrite Hb. split; assumption.
Qed.

(** A send by ConflateV2 leaves no timer pending. *)
Lemma ConflateV2_sent (st st1 : V2.state (T := T)) (sl : slot T) (d : T) :
  wf (as_V3 st) ->
  V2.iteration retryInterval sl st = Some (st1, Some d) ->
  V2.lastMsg st1 = d /\ quiet (V2.timers st1).
Proof.
  intros Hwf Hit.
  pose proof (iteration_as_V3 retryInterval sl st) as Hsim.
  rewrite Hit in Hsim. simpl in Hsim.
  apply iteration_sent in Hsim as (st0 & Haw & _ & Hd & Hst1).
  destruct (await_wf_quiet _ _ _ _ Hwf Haw) as [_ Hq].
  apply (f_equal V3.timers) in Hst1 as Htimers.
  apply (f_equal V3.conflatedMessage) in Hst1 as Hcm.
  simpl in Htimers, Hcm. split; [congruence|]. rewrite Htimers. exact Hq.
Qed.

Lemma V2_await_Tick_quiet (st : V2.state (T := T)) now :
  quiet (V2.timers st) -> V2.await Tick now st = None.
Proof.
  intros Hq. pose proof (await_as_V3 Tick now st) as Hsim.
  rewrite (quiet_no_Tick (as_V3 st) now Hq) in Hsim.
  destruct (V2.await Tick now st); [discriminate Hsim | reflexivity].
Qed.

End V2_facts.

(** X13.  ConflateV2 keeps the value it has sent in [lastMsg], but no timer is
    left pending after a send, so no retry can send it a second time: the next
    iteration, if any, starts with a new value from the producer. *)
Theorem ConflateV2_sends_each_value_once {T : Type} {gozero : GoZero T}
  (retryInterval : Duration) (sched : list (slot T)) (st st1 : V2.state (T := T))
  (ds : list T) (sl : slot T) (d : T) :
  V2.ConflateV2 retryInterval sched V2.init = Some (st, ds) ->
  V2.iteration retryInterval sl st = Some (st1, Some d) ->
  V2.lastMsg st1 = d /\
  (forall now, V2.await Tick now st1 = None) /\
  forall sl' r, V2.iteration retryInterval sl' st1 = Some r -> is_input sl' = true.
Proof.
  intros [Hwf _]%ConflateV2_run_spec Hit.
  destruct (ConflateV2_sent retryInterval st st1 sl d Hwf Hit) as [Hd Hq].
  split; [exact Hd|]. split; [intros now; apply V2_await_Tick_quiet; exact Hq|].
  intros sl' r Hit'. unfold V2.iteration, is_input in *.
  destruct (woke sl'); [reflexivity|].
  rewrite (V2_await_Tick_quiet st1 (at_time sl') Hq) in Hit'. discriminate.
Qed.

Lemma ConflateV2_sends_each_value_once_witness :
  exists st st1 : V2.state (T := Sale),
    V2.ConflateV2 10 one_sale_waiting V2.init = Some (st, []) /\
    V2.iteration 10 (mkSlot 10 Tick true) st = Some (st1, Some (sale 1 500)) /\
    V2.lastMsg st1 = sale 1 500 /\
    (forall now, V2.await Tick now st1 = None).
Proof.
  eexists _, _. split; [vm_compute; reflexivity|].
  split; [vm_compute; reflexivity|].
  destruct (ConflateV2_sends_each_value_once 10 one_sale_waiting
              {| V2.lastMsg := sale 1 500; V2.retryTimer := Some 0%nat;
                 V2.retryCh := Some 0%nat; V2.timers := [mkTimer 10 Armed] |}
              {| V2.lastMsg := sale 1 500; V2.retryTimer := Some 0%nat;
                 V2.retryCh := Some 0%nat; V2.timers := [mkTimer 10 Fired] |}
              [] (mkSlot 10 Tick true) (sale 1 500))
    as (H1 & H2 & _).
  - vm_compute. reflexivity.
  - vm_compute. reflexivity.
  - split; [exact H1 | exact H2].
Defined.

(** X14.  If a run of ConflateV2 leaves a value undelivered, a retry is
    pending for it; with a silent producer and retries that fire when due,
    whatever the number of retries that find the consumer busy, the first that
    finds it parked sends [lastMsg], which is the last value submitted, and
    nothing else. *)
Theorem ConflateV2_retries_until_latest_is_sent {T : Type} {gozero : GoZero T}
  (retryInterval : Duration) (sched : list (slot T)) (st : V2.state (T := T)) (ds : list T) :
  V2.ConflateV2 retryInterval sched V2.init = Some (st, ds) ->
  pending sched <> [] ->
  last (submitted sched) = Some (V2.lastMsg st) /\
  exists t,
    forall n : nat, exists st',
      V2.ConflateV2 retryInterval (retry_schedule retryInterval t n) st
      = Some (st', [V2.lastMsg st]).
Proof.
  intros Hrun Hpend.
  destruct (ConflateV2_run_spec retryInterval sched st ds Hrun) as [Hwf Harmed].
  split.
  - pose proof (ConflateV2_lastMsg retryInterval sched _ _ _ Hrun) as Hlast.
    unfold V2.latest in Hlast.
    destruct (last (submitted sched)) as [x|] eqn:E; [simpl in Hlast; congruence|].
    apply last_None in E. unfold pending in Hpend.
    destruct (batches [] sched) as [gs p] eqn:Hb.
    apply batches_concat in Hb. simpl in Hb, Hpend. rewrite E in Hb.
    apply app_eq_nil in Hb as [_ Hp]. congruence.
  - apply Harmed in Hpend. unfold V3.armed in Hpend. simpl in Hpend.
    destruct (V2.retryCh st) as [c|] eqn:Hch; [|discriminate].
    destruct (V2.timers st !! c) as [[t s]|] eqn:Hc; [|discriminate].
    unfold is_armed in Hpend. simpl in Hpend. destruct s; try discriminate.
    exists t. intros n.
    destruct (retry_loop (conflater := Overwrite) retryInterval n (as_V3 st) c t Hwf Hch Hc)
      as (st3 & Hrun3 & _).
    rewrite ConflateV2_as_V3 in Hrun3.
    destruct (V2.ConflateV2 retryInterval (retry_schedule retryInterval t n) st)
      as [[st' ds']|]; [|discriminate].
    simpl in Hrun3. injection Hrun3 as _ ->. exists st'. reflexivity.
Qed.

Lemma ConflateV2_retries_until_latest_is_sent_witness :
  exists st : V2.state (T := Sale),
    V2.ConflateV2 10 (firstn 2 two_sales) V2.init = Some (st, []) /\
    last (submitted (firstn 2 two_sales)) = Some (V2.lastMsg st) /\
    exists t,
      forall n : nat, exists st',
        V2.ConflateV2 10 (retry_schedule 10 t n) st = Some (st', [V2.lastMsg st]).
Proof.
  eexists. split; [vm_compute; reflexivity|].
  apply (ConflateV2_retries_until_latest_is_sent 10 (firstn 2 two_sales) _ []).
  - vm_compute. reflexivity.
  - vm_compute. discriminate.
Defined.
